(** * The unified orderbook view of alpha-mcp

    A shallow embedding of the [get_orderbook] tool handler of the MCP
    server (the handler that merges the four sides of an on-chain
    orderbook into one YES-denominated book), and the properties of it
    that the specification states.

    Conventions of the embedding.

    - A TypeScript [number] that holds a micro-unit amount, an
      application id or an array length is an integer; it is modelled
      as [Z] (lengths as [nat]), an integer standing for the number of
      that value.  The complement [1_000_000 - e.price], whose result
      is stored, is computed in IEEE binary64 and read back as an
      integer ([complement]); it is the exact difference as long as the
      price and the result are safe integers (absolute value below
      2^53).  The differences of two stored prices, in the comparators
      and in the spread, are used through their sign and through their
      conversion to binary64, which are those of the binary64
      difference.
    - The display strings are computed by the handler with binary64
      divisions, multiplications and [Number.prototype.toFixed].  They
      are modelled with the executable binary64 specification of the
      standard library ([SpecFloat]), starting from the integer
      converted to binary64.
    - A string is the sequence of its UTF-8 bytes.
    - [Array.prototype.sort] is the stable sort that ECMAScript
      requires; [Array.prototype.map] and the array literal with
      spread elements build new arrays. *)

From Stdlib Require Import ZArith Lia Bool Ascii String DecimalString.
From Stdlib Require Import Floats.SpecFloat.
From stdpp Require Import base list strings sorting.

Local Open Scope Z_scope.

(** ** JavaScript numbers and their formatting *)

Module JS.

(** binary64 *)
Definition prec : Z := 53.
Definition emax : Z := 1024.

Abbreviation num := spec_float.

(** The binary64 value of an integer (exact for safe integers). *)
Definition of_Z (z : Z) : num := binary_normalize prec emax z 0 false.

Definition div : num → num → num := SFdiv prec emax.
Definition mul : num → num → num := SFmul prec emax.
Definition sub : num → num → num := SFsub prec emax.

(** The integer that a number holds.  The numbers read back in this
    embedding are differences of integers, which are integers. *)
Definition to_Z (x : num) : Z :=
  match x with
  | S754_finite s m e =>
      let v := if 0 <=? e then Zpos m * 2 ^ e else Zpos m / 2 ^ (- e) in
      if s then - v else v
  | _ => 0
  end.

(** Decimal digits of a non-negative integer. *)
Definition digits (n : Z) : string :=
  NilZero.string_of_uint (N.to_uint (Z.to_N n)).

Fixpoint zeros (k : nat) : string :=
  match k with
  | O => ""
  | S k' => String "0"%char (zeros k')
  end.

Fixpoint take_str (k : nat) (s : string) : string :=
  match k, s with
  | S k', String c s' => String c (take_str k' s')
  | _, _ => ""
  end.

Fixpoint drop_str (k : nat) (s : string) : string :=
  match k, s with
  | S k', String _ s' => drop_str k' s'
  | _, _ => s
  end.

(** [m * 2^e >= 10^21], on exact values. *)
Definition ge_1e21 (m : positive) (e : Z) : bool :=
  if 0 <=? e then 10 ^ 21 <=? Zpos m * 2 ^ e
  else 10 ^ 21 * 2 ^ (- e) <=? Zpos m.

(** The integer [n] for which [n / 10^f - m * 2^e] is as close to zero
    as possible, the larger one when there are two. *)
Definition nearest_scaled (f : nat) (m : positive) (e : Z) : Z :=
  let a := Zpos m * 10 ^ Z.of_nat f in
  if 0 <=? e then a * 2 ^ e
  else (2 * a + 2 ^ (- e)) / 2 ^ (- e + 1).

(** The digits of [n] with a decimal point before the last [f]. *)
Definition fixed_digits (f : nat) (n : Z) : string :=
  let m := digits n in
  let m := if (String.length m <=? f)%nat
           then zeros (f + 1 - String.length m) +:+ m else m in
  let k := String.length m in
  match f with
  | O => m
  | _ => take_str (k - f) m +:+ "." +:+ drop_str (k - f) m
  end.

(** Number::toString of an integer [x >= 10^21], which is written in
    exponential notation with the fewest significant digits that
    still denote the binary64 value [of_Z x]. *)
Fixpoint strip_zeros_rev (s : list Ascii.ascii) : list Ascii.ascii :=
  match s with
  | c :: s' => if Ascii.eqb c "0"%char then strip_zeros_rev s' else s
  | [] => []
  end.

Definition strip_zeros (s : string) : string :=
  string_of_list_ascii
    (rev (strip_zeros_rev (rev (list_ascii_of_string s)))).

Definition candidate (x : Z) (d k : nat) : option Z :=
  let p := 10 ^ Z.of_nat (d - k) in
  let lo := (x / p) * p in
  let hi := lo + p in
  let ok v := SFeqb (of_Z v) (of_Z x) in
  match ok lo, ok hi with
  | true, true => Some (if x - lo <=? hi - x then lo else hi)
  | true, false => Some lo
  | false, true => Some hi
  | false, false => None
  end.

Fixpoint shortest (x : Z) (d k fuel : nat) : Z :=
  match fuel with
  | O => x
  | S fuel' =>
      match candidate x d k with
      | Some v => v
      | None => shortest x d (S k) fuel'
      end
  end.

Definition toString_large (x : Z) : string :=
  let d := String.length (digits x) in
  let v := digits (shortest x d 1 17) in
  let n := String.length v in
  let s := strip_zeros v in
  take_str 1 s
    +:+ (if (String.length s <=? 1)%nat then "" else "." +:+ drop_str 1 s)
    +:+ "e+" +:+ digits (Z.of_nat n - 1).

(** [Number.prototype.toFixed(f)] *)
Definition toFixed (f : nat) (x : num) : string :=
  match x with
  | S754_nan => "NaN"
  | S754_infinity s => if s then "-Infinity" else "Infinity"
  | S754_zero _ => fixed_digits f 0
  | S754_finite s m e =>
      (if s then "-" else "")
        +:+ (if ge_1e21 m e then toString_large (Zpos m * 2 ^ e)
             else fixed_digits f (nearest_scaled f m e))
  end.

End JS.

(** ** The data of the handler *)

Module RawEntry.
(** [type RawEntry = { price; quantity; escrowAppId; owner }] *)
Record t := mk {
  price : Z;
  quantity : Z;
  escrowAppId : Z;
  owner : string
}.
End RawEntry.

Module UnifiedEntry.
(** [type UnifiedEntry =
      { price; priceRaw; shares; total; escrowAppId; owner; source }] *)
Record t := mk {
  price : string;
  priceRaw : Z;
  shares : string;
  total : string;
  escrowAppId : Z;
  owner : string;
  source : string
}.
End UnifiedEntry.

Module Book.
(** What [client.getOrderbook] returns: [book.yes.bids],
    [book.yes.asks], [book.no.bids], [book.no.asks]. *)
Record side := mk_side {
  bids : list RawEntry.t;
  asks : list RawEntry.t
}.
Record t := mk {
  yes : side;
  no : side
}.
End Book.

Module Result.
(** [{ unified: { asks, bids, spread }, totalOrders }] *)
Record unified_t := mk_unified {
  asks : list UnifiedEntry.t;
  bids : list UnifiedEntry.t;
  spread : string
}.
Record t := mk {
  unified : unified_t;
  totalOrders : nat
}.
End Result.

(** ** The handler, as a function of the fetched book *)

(** [toUnified(e, source, priceOverride?)] *)
Definition toUnified (e : RawEntry.t) (source : string)
    (priceOverride : option Z) : UnifiedEntry.t :=
  let p := default (RawEntry.price e) priceOverride in
  let priceCents := JS.div (JS.of_Z p) (JS.of_Z 1000000) in
  let shares := JS.div (JS.of_Z (RawEntry.quantity e)) (JS.of_Z 1000000) in
  {| UnifiedEntry.price :=
       JS.toFixed 2 (JS.mul priceCents (JS.of_Z 100)) +:+ "¢";
     UnifiedEntry.priceRaw := p;
     UnifiedEntry.shares := JS.toFixed 2 shares;
     UnifiedEntry.total := "$" +:+ JS.toFixed 2 (JS.mul priceCents shares);
     UnifiedEntry.escrowAppId := RawEntry.escrowAppId e;
     UnifiedEntry.owner := RawEntry.owner e;
     UnifiedEntry.source := source |}.

(** [Array.prototype.sort(cmp)]: [a] stays before [b] unless
    [cmp a b > 0]; elements that compare equal keep their order. *)
Section Sort.
Context {A : Type} (cmp : A → A → Z).

Fixpoint insert_sorted (x : A) (l : list A) : list A :=
  match l with
  | [] => [x]
  | y :: l' =>
      if cmp x y <=? 0 then x :: l else y :: insert_sorted x l'
  end.

Definition sort (l : list A) : list A := foldr insert_sorted [] l.
End Sort.

(** The two comparators of the handler. *)
Definition asc (a b : UnifiedEntry.t) : Z :=
  UnifiedEntry.priceRaw a - UnifiedEntry.priceRaw b.
Definition desc (a b : UnifiedEntry.t) : Z :=
  UnifiedEntry.priceRaw b - UnifiedEntry.priceRaw a.

Definition YES_ask : string := "YES ask".
Definition NO_bid : string := "NO bid (= YES ask)".
Definition YES_bid : string := "YES bid".
Definition NO_ask : string := "NO ask (= YES bid)".

(** [1_000_000 - e.price]: the subtraction is the one of binary64, which
    rounds once the result leaves the safe integers. *)
Definition complement (price : Z) : Z :=
  JS.to_Z (JS.sub (JS.of_Z 1000000) (JS.of_Z price)).

(** The arrays before sorting. *)
Definition asks_merged (book : Book.t) : list UnifiedEntry.t :=
  map (λ e, toUnified e YES_ask None) (Book.asks (Book.yes book))
  ++ map (λ e, toUnified e NO_bid (Some (complement (RawEntry.price e))))
       (Book.bids (Book.no book)).

Definition bids_merged (book : Book.t) : list UnifiedEntry.t :=
  map (λ e, toUnified e YES_bid None) (Book.bids (Book.yes book))
  ++ map (λ e, toUnified e NO_ask (Some (complement (RawEntry.price e))))
       (Book.asks (Book.no book)).

(** [asks.length > 0 ? asks[0].priceRaw : null] *)
Definition best (l : list UnifiedEntry.t) : option Z :=
  match l with
  | [] => None
  | u :: _ => Some (UnifiedEntry.priceRaw u)
  end.

(** The text of a spread of [d] micro-units. *)
Definition spread_text (d : Z) : string :=
  JS.toFixed 2 (JS.div (JS.of_Z d) (JS.of_Z 10000)) +:+ "¢".

Definition spread_of (bestAsk bestBid : option Z) : string :=
  match bestAsk, bestBid with
  | Some a, Some b => spread_text (a - b)
  | _, _ => "N/A"
  end.

Definition get_orderbook (book : Book.t) : Result.t :=
  let asks := sort asc (asks_merged book) in
  let bids := sort desc (bids_merged book) in
  let bestAsk := best asks in
  let bestBid := best bids in
  let spread := spread_of bestAsk bestBid in
  let totalOrders :=
    (length (Book.bids (Book.yes book)) + length (Book.asks (Book.yes book))
     + length (Book.bids (Book.no book)) + length (Book.asks (Book.no book)))%nat in
  {| Result.unified :=
       {| Result.asks := asks; Result.bids := bids; Result.spread := spread |};
     Result.totalOrders := totalOrders |}.


(** ** The handler on the heap

    In the program the four sides, the arrays built by [map] and by the
    array literals, and the arrays of the result are objects that are
    passed by reference, and [sort] reorders the array it is called on.
    This model keeps the arrays in a store, so that what the handler
    leaves in the arrays it was given can be stated.  The entries are
    values: no statement of the handler assigns to a field of an
    entry. *)

Module Heap.

Inductive array :=
| RawArr (es : list RawEntry.t)
| UniArr (us : list UnifiedEntry.t).

Abbreviation loc := nat.
Abbreviation heap := (list array).

(** A computation reads and updates the store; [None] is a thrown
    [TypeError]. *)
Definition M (A : Type) : Type := heap → option (A * heap).

#[global] Instance M_ret : MRet M := λ A x h, Some (x, h).
#[global] Instance M_bind : MBind M := λ A B f m h,
  match m h with
  | Some (x, h') => f x h'
  | None => None
  end.

Definition alloc (a : array) : M loc := λ h, Some (length h, h ++ [a]).

Definition get_raw (l : loc) : M (list RawEntry.t) := λ h,
  match h !! l with
  | Some (RawArr es) => Some (es, h)
  | _ => None
  end.

Definition get_uni (l : loc) : M (list UnifiedEntry.t) := λ h,
  match h !! l with
  | Some (UniArr us) => Some (us, h)
  | _ => None
  end.

Definition set_uni (l : loc) (us : list UnifiedEntry.t) : M unit := λ h,
  match h !! l with
  | Some _ => Some ((), <[l := UniArr us]> h)
  | None => None
  end.

(** [entries.map(f)]: a new array. *)
Definition array_map (f : RawEntry.t → UnifiedEntry.t) (l : loc) : M loc :=
  es ← get_raw l; alloc (UniArr (map f es)).

(** [[...a, ...b]]: a new array. *)
Definition array_spread (a b : loc) : M loc :=
  xs ← get_uni a; ys ← get_uni b; alloc (UniArr (xs ++ ys)).

(** [a.sort(cmp)]: reorders [a] itself and returns it. *)
Definition array_sort (cmp : UnifiedEntry.t → UnifiedEntry.t → Z)
    (a : loc) : M loc :=
  xs ← get_uni a; _ ← set_uni a (sort cmp xs); mret a.

(** [a.length] *)
Definition array_length (l : loc) : M nat :=
  es ← get_raw l; mret (length es).

(** [a.length > 0 ? a[0].priceRaw : null] *)
Definition best_at (a : loc) : M (option Z) :=
  xs ← get_uni a; mret (best xs).

(** The book and the result, with their arrays by reference. *)
Record book_ref := mk_book {
  yes_bids : loc;
  yes_asks : loc;
  no_bids : loc;
  no_asks : loc
}.

Record result_ref := mk_result {
  asks : loc;
  bids : loc;
  spread : string;
  totalOrders : nat
}.

(** The arrays that one call adds to the store. *)
Definition built (book : Book.t) : heap :=
  [ UniArr (map (λ e, toUnified e YES_ask None) (Book.asks (Book.yes book)));
    UniArr (map (λ e, toUnified e NO_bid (Some (complement (RawEntry.price e))))
              (Book.bids (Book.no book)));
    UniArr (Result.asks (Result.unified (get_orderbook book)));
    UniArr (map (λ e, toUnified e YES_bid None) (Book.bids (Book.yes book)));
    UniArr (map (λ e, toUnified e NO_ask (Some (complement (RawEntry.price e))))
              (Book.asks (Book.no book)));
    UniArr (Result.bids (Result.unified (get_orderbook book))) ].

Definition get_orderbook (book : book_ref) : M result_ref :=
  a1 ← array_map (λ e, toUnified e YES_ask None) (yes_asks book);
  a2 ← array_map
         (λ e, toUnified e NO_bid (Some (complement (RawEntry.price e))))
         (no_bids book);
  a ← array_spread a1 a2;
  asks ← array_sort asc a;
  b1 ← array_map (λ e, toUnified e YES_bid None) (yes_bids book);
  b2 ← array_map
         (λ e, toUnified e NO_ask (Some (complement (RawEntry.price e))))
         (no_asks book);
  b ← array_spread b1 b2;
  bids ← array_sort desc b;
  bestAsk ← best_at asks;
  bestBid ← best_at bids;
  n1 ← array_length (yes_bids book);
  n2 ← array_length (yes_asks book);
  n3 ← array_length (no_bids book);
  n4 ← array_length (no_asks book);
  mret {| asks := asks; bids := bids;
          spread := spread_of bestAsk bestBid;
          totalOrders := (n1 + n2 + n3 + n4)%nat |}.

(** The store [h] holds the four sides of [book] at the places that
    [ref] gives. *)
Definition holds (h : heap) (ref : book_ref) (book : Book.t) : Prop :=
  h !! yes_bids ref = Some (RawArr (Book.bids (Book.yes book)))
  ∧ h !! yes_asks ref = Some (RawArr (Book.asks (Book.yes book)))
  ∧ h !! no_bids ref = Some (RawArr (Book.bids (Book.no book)))
  ∧ h !! no_asks ref = Some (RawArr (Book.asks (Book.no book))).

End Heap.

(** ** The helpers, the clients and the wallet address *)

(** [formatPrice] and [formatQty] *)
Definition formatPrice (microunits : JS.num) : string :=
  "$" +:+ JS.toFixed 2 (JS.div microunits (JS.of_Z 1000000)).

Definition formatQty (microunits : JS.num) : string :=
  JS.toFixed 2 (JS.div microunits (JS.of_Z 1000000)) +:+ " shares".

Module TextResult.
(** [{ content: [{ type: 'text', text }] }] *)
Record item := mk_item { type : string; text : string }.
Record t := mk { content : list item }.
End TextResult.

Definition textResult (text : string) : TextResult.t :=
  {| TextResult.content :=
       [ {| TextResult.type := "text"; TextResult.text := text |} ] |}.

Module Server.

(** What a call gives: a value, or a thrown [Error] with its message. *)
Inductive outcome (A : Type) : Type :=
| Return (a : A)
| Throw (message : string).
Arguments Return {A} a.
Arguments Throw {A} message.

(** A value of type [string | undefined] counts as true when it is a
    string that is not empty. *)
Definition truthy (s : option string) : bool :=
  match s with
  | Some (String _ _) => true
  | _ => false
  end.

(** What [algosdk.mnemonicToSecretKey] returns. *)
Record Account := mk_account { addr : string; sk : list Byte.byte }.

Inductive Signer :=
| BasicAccountSigner (account : Account)
| dummySigner.

(** [new algosdk.Algodv2(token, server, port)] and
    [new algosdk.Indexer(token, server, port)] *)
Record Endpoint := mk_endpoint {
  token : string;
  server : string;
  port : string
}.

(** The client, as the configuration it is built with. *)
Record AlphaClient := mk_client {
  algodClient : Endpoint;
  indexerClient : Endpoint;
  signer : Signer;
  activeAddress : string;
  matcherAppId : JS.num;
  usdcAssetId : JS.num;
  apiBaseUrl : string;
  apiKey : option string
}.

(** An open order and a position, with the fields the handlers read,
    and what the handlers make of them. *)
Record OpenOrder := mk_order {
  o_escrowAppId : Z;
  o_position : Z;
  o_side : Z;
  o_price : Z;
  o_quantity : Z;
  o_quantityFilled : Z
}.

Record FormattedOrder := mk_formatted_order {
  f_escrowAppId : Z;
  f_position : string;
  f_side : string;
  f_price : string;
  f_quantity : string;
  f_filled : string;
  f_remaining : string
}.

Record Position := mk_position {
  p_marketAppId : Z;
  p_title : option string;
  p_yesBalance : Z;
  p_noBalance : Z;
  p_yesAssetId : Z;
  p_noAssetId : Z
}.

Record FormattedPosition := mk_formatted_position {
  fp_marketAppId : Z;
  fp_title : string;
  fp_yesBalance : string;
  fp_noBalance : string;
  fp_yesAssetId : Z;
  fp_noAssetId : Z
}.

(** [`${n}`] for an integer [n]: its decimal digits below 10^21, the
    exponential notation from there on. *)
Definition number_text (n : Z) : string :=
  match JS.of_Z n with
  | S754_finite s m e =>
      let x := if 0 <=? e then Zpos m * 2 ^ e else Zpos m / 2 ^ (- e) in
      (if s then "-" else "")
        +:+ (if x <? 10 ^ 21 then JS.digits x else JS.toString_large x)
  | S754_zero _ => "0"
  | S754_infinity s => if s then "-Infinity" else "Infinity"
  | S754_nan => "NaN"
  end.

Definition format_order (o : OpenOrder) : FormattedOrder :=
  {| f_escrowAppId := o_escrowAppId o;
     f_position := if o_position o =? 1 then "YES" else "NO";
     f_side := if o_side o =? 1 then "BUY" else "SELL";
     f_price := formatPrice (JS.of_Z (o_price o));
     f_quantity := formatQty (JS.of_Z (o_quantity o));
     f_filled := formatQty (JS.of_Z (o_quantityFilled o));
     f_remaining :=
       formatQty (JS.sub (JS.of_Z (o_quantity o))
                         (JS.of_Z (o_quantityFilled o))) |}.

Definition format_position (p : Position) : FormattedPosition :=
  {| fp_marketAppId := p_marketAppId p;
     fp_title := if truthy (p_title p) then default "" (p_title p)
                 else "Market " +:+ number_text (p_marketAppId p);
     fp_yesBalance := formatQty (JS.of_Z (p_yesBalance p));
     fp_noBalance := formatQty (JS.of_Z (p_noBalance p));
     fp_yesAssetId := p_yesAssetId p;
     fp_noAssetId := p_noAssetId p |}.

(** The constants read from the environment when the server starts. *)
Record Env := mk_env {
  MNEMONIC : option string;
  API_KEY : option string;
  ALGOD_SERVER : string;
  ALGOD_TOKEN : string;
  ALGOD_PORT : string;
  INDEXER_SERVER : string;
  INDEXER_TOKEN : string;
  INDEXER_PORT : string;
  MATCHER_APP_ID : JS.num;
  USDC_ASSET_ID : JS.num;
  API_BASE_URL : string
}.

(** What the program calls and does not define:
    [algosdk.mnemonicToSecretKey], which throws on a mnemonic that is
    not valid, the two calls of the client that the read tools below
    make, and [JSON.stringify(value, null, 2)] on what they format. *)
Record Externals := mk_externals {
  mnemonicToSecretKey : string → outcome Account;
  getOpenOrders : AlphaClient → Z → string → outcome (list OpenOrder);
  getPositions : AlphaClient → string → outcome (list Position);
  stringify_orders : list FormattedOrder → string;
  stringify_positions : list FormattedPosition → string
}.

Definition no_mnemonic_message : string :=
  "ALPHA_MNEMONIC environment variable is required for trading operations. "
  +:+ "Set it in your MCP server configuration.".

Definition no_wallet_message : string :=
  "No wallet address provided. Either pass a walletAddress parameter, or set ALPHA_MNEMONIC in your MCP server configuration so the default wallet is used.".

Section Config.

Variable env : Env.
Variable ext : Externals.

Definition createTradingClient : outcome (option AlphaClient) :=
  match MNEMONIC env with
  | Some (String _ _ as mnemonic) =>
      let algodClient :=
        {| token := ALGOD_TOKEN env; server := ALGOD_SERVER env;
           port := ALGOD_PORT env |} in
      let indexerClient :=
        {| token := INDEXER_TOKEN env; server := INDEXER_SERVER env;
           port := INDEXER_PORT env |} in
      match mnemonicToSecretKey ext mnemonic with
      | Throw message => Throw message
      | Return account =>
          Return (Some
            {| algodClient := algodClient;
               indexerClient := indexerClient;
               signer := BasicAccountSigner account;
               activeAddress := addr account;
               matcherAppId := MATCHER_APP_ID env;
               usdcAssetId := USDC_ASSET_ID env;
               apiBaseUrl := API_BASE_URL env;
               apiKey := if truthy (API_KEY env) then API_KEY env else None |})
      end
  | _ => Return None
  end.

Definition createReadOnlyClient : AlphaClient :=
  {| algodClient :=
       {| token := ALGOD_TOKEN env; server := ALGOD_SERVER env;
          port := ALGOD_PORT env |};
     indexerClient :=
       {| token := INDEXER_TOKEN env; server := INDEXER_SERVER env;
          port := INDEXER_PORT env |};
     signer := dummySigner;
     activeAddress :=
       "AAAAAAAAAAAAAAAAAAAAAAAAAAAAAAAAAAAAAAAAAAAAAAAAAAAAY5HFKQ";
     matcherAppId := MATCHER_APP_ID env;
     usdcAssetId := USDC_ASSET_ID env;
     apiBaseUrl := API_BASE_URL env;
     apiKey := if truthy (API_KEY env) then API_KEY env else None |}.

Definition requireTradingClient : outcome AlphaClient :=
  match createTradingClient with
  | Throw message => Throw message
  | Return None => Throw no_mnemonic_message
  | Return (Some client) => Return client
  end.

Definition getReadOnlyClient : outcome AlphaClient :=
  match createTradingClient with
  | Throw message => Throw message
  | Return None => Return createReadOnlyClient
  | Return (Some client) => Return client
  end.

Definition getConfiguredWalletAddress : option string :=
  match MNEMONIC env with
  | Some (String _ _ as mnemonic) =>
      match mnemonicToSecretKey ext mnemonic with
      | Return account => Some (addr account)
      | Throw _ => None
      end
  | _ => None
  end.

Definition resolveWalletAddress (walletAddress : option string)
    : outcome string :=
  match walletAddress with
  | Some (String _ _ as address) => Return address
  | _ =>
      match getConfiguredWalletAddress with
      | Some (String _ _ as configured) => Return configured
      | _ => Throw no_wallet_message
      end
  end.

Definition get_open_orders (marketAppId : Z) (walletAddress : option string)
    : outcome TextResult.t :=
  match resolveWalletAddress walletAddress with
  | Throw message => Throw message
  | Return address =>
      match getReadOnlyClient with
      | Throw message => Throw message
      | Return client =>
          match getOpenOrders ext client marketAppId address with
          | Throw message => Throw message
          | Return orders =>
              let formatted := map format_order orders in
              Return (textResult
                (if (0 <? length formatted)%nat
                 then stringify_orders ext formatted
                 else "No open orders found for this wallet on this market."))
          end
      end
  end.

Definition get_positions (walletAddress : option string)
    : outcome TextResult.t :=
  match resolveWalletAddress walletAddress with
  | Throw message => Throw message
  | Return address =>
      match getReadOnlyClient with
      | Throw message => Throw message
      | Return client =>
          match getPositions ext client address with
          | Throw message => Throw message
          | Return positions =>
              let formatted := map format_position positions in
              Return (textResult
                (if (0 <? length formatted)%nat
                 then stringify_positions ext formatted
                 else "No positions found for this wallet."))
          end
      end
  end.

End Config.

End Server.

(** The book seen from the NO token: the NO sides take the place of the
    YES sides. *)
Definition mirror (book : Book.t) : Book.t :=
  {| Book.yes := Book.no book; Book.no := Book.yes book |}.

(** Prices on which the complement is exact, and books of such
    prices. *)
Definition safe_price (p : Z) : Prop := 1000000 - 2 ^ 53 < p < 2 ^ 53.

Definition safe_book (book : Book.t) : Prop :=
  ∀ e, e ∈ Book.bids (Book.yes book) ∨ e ∈ Book.asks (Book.yes book)
       ∨ e ∈ Book.bids (Book.no book) ∨ e ∈ Book.asks (Book.no book) →
       safe_price (RawEntry.price e).

(** No character of the text is a minus sign. *)
Definition plain (s : string) : Prop :=
  Forall (λ c, c ≠ "-"%char) (list_ascii_of_string s).

(** A number whose sign is not set. *)
Definition unsigned (x : JS.num) : Prop :=
  match x with
  | S754_zero s | S754_infinity s | S754_finite s _ _ => s = false
  | S754_nan => True
  end.

(** ** Sample books *)

Definition entry (price quantity : Z) : RawEntry.t :=
  {| RawEntry.price := price; RawEntry.quantity := quantity;
     RawEntry.escrowAppId := 7; RawEntry.owner := "OWNER" |}.

Definition book_of (yesBids yesAsks noBids noAsks : list RawEntry.t) : Book.t :=
  {| Book.yes := {| Book.bids := yesBids; Book.asks := yesAsks |};
     Book.no := {| Book.bids := noBids; Book.asks := noAsks |} |}.

(** The book of the specification's spread example. *)
Definition sample_book : Book.t :=
  book_of [entry 480000 1000000] [entry 600000 1000000]
          [entry 350000 2000000] [].

(** A NO bid at price 0 and a NO ask at price 1,000,000. *)
Definition boundary_book : Book.t :=
  book_of [] [] [entry 0 1000000] [entry 1000000 1000000].

(** Books whose best ask is 0, 49, -20 and -30 micro-units above the
    best bid. *)
Definition level_book : Book.t :=
  book_of [entry 500000 1000000] [entry 500000 1000000] [] [].
Definition near_book : Book.t :=
  book_of [entry 500000 1000000] [entry 500049 1000000] [] [].
Definition crossed_book : Book.t :=
  book_of [entry 500020 1000000] [entry 500000 1000000] [] [].
Definition crossed_book' : Book.t :=
  book_of [entry 500030 1000000] [entry 500000 1000000] [] [].

(** Three asks at one price and one below, out of order. *)
Definition tied_book : Book.t :=
  book_of [] [entry 600000 1; entry 500000 2; entry 600000 3]
          [entry 400000 4] [].

Definition empty_book : Book.t := book_of [] [] [] [].

(** A store that holds the four sides of a book, and the book that
    refers to them. *)
Definition store_of (book : Book.t) : Heap.heap :=
  [ Heap.RawArr (Book.bids (Book.yes book));
    Heap.RawArr (Book.asks (Book.yes book));
    Heap.RawArr (Book.bids (Book.no book));
    Heap.RawArr (Book.asks (Book.no book)) ].

Definition ref_of_store : Heap.book_ref :=
  {| Heap.yes_bids := 0; Heap.yes_asks := 1;
     Heap.no_bids := 2; Heap.no_asks := 3 |}.

(** ** Sample configurations *)

(** The defaults of the configuration, with a given mnemonic, and
    externals for which the mnemonic "good" is valid and any other is
    not. *)
Definition sample_env (mnemonic : option string) : Server.Env :=
  {| Server.MNEMONIC := mnemonic;
     Server.API_KEY := None;
     Server.ALGOD_SERVER := "https://mainnet-api.algonode.cloud";
     Server.ALGOD_TOKEN := "";
     Server.ALGOD_PORT := "443";
     Server.INDEXER_SERVER := "https://mainnet-idx.algonode.cloud";
     Server.INDEXER_TOKEN := "";
     Server.INDEXER_PORT := "443";
     Server.MATCHER_APP_ID := JS.of_Z 3078581851;
     Server.USDC_ASSET_ID := JS.of_Z 31566704;
     Server.API_BASE_URL := "https://partners.alphaarcade.com/api" |}.

Definition sample_account : Server.Account :=
  {| Server.addr := "WALLET"; Server.sk := [] |}.

Definition sample_ext : Server.Externals :=
  {| Server.mnemonicToSecretKey := λ m,
       if String.eqb m "good" then Server.Return sample_account
       else Server.Throw "failed to decode mnemonic";
     Server.getOpenOrders := λ _ _ _, Server.Return [];
     Server.getPositions := λ _ _, Server.Return [];
     Server.stringify_orders := λ _, "[...]";
     Server.stringify_positions := λ _, "[...]" |}.

(** ** Facts about the sort *)

Section SortFacts.
Context {A : Type} (cmp : A → A → Z).

Lemma insert_sorted_perm (x : A) (l : list A) :
  insert_sorted cmp x l ≡ₚ x :: l.
Proof.
  induction l as [|y l IH]; simpl; [done|].
  destruct (cmp x y <=? 0); [done|].
  rewrite IH. apply Permutation_swap.
Qed.

Lemma sort_perm (l : list A) : sort cmp l ≡ₚ l.
Proof.
  induction l as [|x l IH]; simpl; [done|].
  by rewrite insert_sorted_perm, IH.
Qed.

Lemma sort_length (l : list A) : length (sort cmp l) = length l.
Proof. by rewrite sort_perm. Qed.

(** Elements of one class (a set of elements that compare equal) keep
    their order. *)
Lemma insert_sorted_filter (P : A → Prop) `{!∀ x, Decision (P x)}
    (x : A) (l : list A) :
  (∀ a b, P a → P b → cmp a b ≤ 0) →
  filter P (insert_sorted cmp x l) = filter P (x :: l).
Proof.
  intros HP. induction l as [|y l IH]; simpl; [done|].
  destruct (Z.leb_spec (cmp x y) 0) as [Hle|Hgt]; [done|].
  rewrite (filter_cons _ y), IH, !(filter_cons _ x), (filter_cons _ y).
  destruct (decide (P x)) as [Hx|Hx], (decide (P y)) as [Hy|Hy]; try done.
  specialize (HP x y Hx Hy). lia.
Qed.

Lemma sort_filter (P : A → Prop) `{!∀ x, Decision (P x)} (l : list A) :
  (∀ a b, P a → P b → cmp a b ≤ 0) →
  filter P (sort cmp l) = filter P l.
Proof.
  intros HP. induction l as [|x l IH]; simpl; [done|].
  rewrite insert_sorted_filter by done.
  by rewrite !filter_cons, IH.
Qed.

(** With a comparator that is the difference of a key, the result is
    ordered by the key. *)
Context (key : A → Z).
Hypothesis cmp_key : ∀ a b, cmp a b ≤ 0 ↔ key a ≤ key b.

Lemma insert_sorted_sorted (x : A) (l : list A) :
  StronglySorted (λ a b, key a ≤ key b) l →
  StronglySorted (λ a b, key a ≤ key b) (insert_sorted cmp x l).
Proof.
  induction 1 as [|y l Hl IH Hy]; simpl.
  - repeat constructor.
  - destruct (Z.leb_spec (cmp x y) 0) as [Hle|Hgt].
    + apply cmp_key in Hle. constructor; [by constructor|].
      constructor; [done|].
      eapply Forall_impl; [exact Hy|]. simpl. intros; lia.
    + assert (key y ≤ key x) by (destruct (cmp_key x y); lia).
      constructor; [done|].
      rewrite insert_sorted_perm. by constructor.
Qed.

Lemma sort_sorted (l : list A) :
  StronglySorted (λ a b, key a ≤ key b) (sort cmp l).
Proof.
  induction l as [|x l IH]; simpl; [constructor|].
  by apply insert_sorted_sorted.
Qed.

Lemma sort_stable (p : Z) (l : list A) :
  filter (λ a, key a = p) (sort cmp l) = filter (λ a, key a = p) l.
Proof.
  apply sort_filter. intros a b Ha Hb. apply cmp_key. lia.
Qed.

End SortFacts.

(** A list that is ordered by a key is determined by the sublists of
    its elements of each key: two stable sorts of one array agree. *)
Lemma stable_sorted_unique {A : Type} (key : A → Z) (l1 l2 : list A) :
  StronglySorted (λ a b, key a ≤ key b) l1 →
  StronglySorted (λ a b, key a ≤ key b) l2 →
  (∀ p, filter (λ a, key a = p) l1 = filter (λ a, key a = p) l2) →
  l1 = l2.
Proof.
  intros H1; revert l2.
  induction H1 as [|x l1 Hl1 IH Hx]; intros l2 H2 Hf.
  - destruct l2 as [|y l2]; [done|].
    specialize (Hf (key y)). rewrite filter_cons_True in Hf by done. done.
  - destruct H2 as [|y l2 Hl2 Hy].
    { specialize (Hf (key x)). rewrite filter_cons_True in Hf by done. done. }
    assert (key x = key y) as Hk.
    { destruct (decide (key x = key y)) as [|Hne]; [done|].
      assert (y ∈ l1) as Hin1.
      { assert (y ∈ filter (λ a, key a = key y) (x :: l1)) as Hin.
        { rewrite Hf, filter_cons_True by done. left. }
        rewrite filter_cons_False in Hin by done.
        by apply list_elem_of_filter in Hin as [_ ?]. }
      assert (x ∈ l2) as Hin2.
      { assert (x ∈ filter (λ a, key a = key x) (y :: l2)) as Hin.
        { rewrite <- Hf, filter_cons_True by done. left. }
        rewrite filter_cons_False in Hin by done.
        by apply list_elem_of_filter in Hin as [_ ?]. }
      rewrite Forall_forall in Hx, Hy.
      specialize (Hx _ Hin1). specialize (Hy _ Hin2). lia. }
    pose proof (Hf (key x)) as Hfx.
    rewrite filter_cons_True in Hfx by done.
    rewrite filter_cons_True in Hfx by done.
    injection Hfx as -> Hfx. f_equal.
    apply IH; [done|]. intros p. specialize (Hf p).
    destruct (decide (key y = p)) as [<-|Hne]; [done|].
    by rewrite !filter_cons_False in Hf by done.
Qed.

(** ** Running the handler on the heap *)

Section Run.

Lemma bind_run {A B : Type} (m : Heap.M A) (f : A → Heap.M B) (h h' : Heap.heap) (x : A) :
  m h = Some (x, h') → (m ≫= f) h = f x h'.
Proof. intros H. unfold mbind, Heap.M_bind. by rewrite H. Qed.

Lemma array_map_run (f : RawEntry.t → UnifiedEntry.t) (l : Heap.loc)
    (h : Heap.heap) (es : list RawEntry.t) :
  h !! l = Some (Heap.RawArr es) →
  Heap.array_map f l h = Some (length h, h ++ [Heap.UniArr (map f es)]).
Proof.
  intros H. unfold Heap.array_map.
  rewrite (bind_run _ _ h h es); [done|].
  unfold Heap.get_raw. by rewrite H.
Qed.

Lemma array_spread_run (a b : Heap.loc) (h : Heap.heap) (xs ys : list UnifiedEntry.t) :
  h !! a = Some (Heap.UniArr xs) → h !! b = Some (Heap.UniArr ys) →
  Heap.array_spread a b h = Some (length h, h ++ [Heap.UniArr (xs ++ ys)]).
Proof.
  intros Ha Hb. unfold Heap.array_spread.
  rewrite (bind_run _ _ h h xs) by (unfold Heap.get_raw, Heap.get_uni; by rewrite Ha).
  rewrite (bind_run _ _ h h ys) by (unfold Heap.get_uni; by rewrite Hb).
  done.
Qed.

Lemma array_sort_run (cmp : UnifiedEntry.t → UnifiedEntry.t → Z) (a : Heap.loc)
    (h : Heap.heap) (xs : list UnifiedEntry.t) :
  h !! a = Some (Heap.UniArr xs) →
  Heap.array_sort cmp a h = Some (a, <[a := Heap.UniArr (sort cmp xs)]> h).
Proof.
  intros Ha. unfold Heap.array_sort.
  rewrite (bind_run _ _ h h xs) by (unfold Heap.get_uni; by rewrite Ha).
  rewrite (bind_run _ _ h (<[a := Heap.UniArr (sort cmp xs)]> h) ())
    by (unfold Heap.set_uni; by rewrite Ha).
  done.
Qed.

Lemma best_at_run (a : Heap.loc) (h : Heap.heap) (xs : list UnifiedEntry.t) :
  h !! a = Some (Heap.UniArr xs) → Heap.best_at a h = Some (best xs, h).
Proof.
  intros Ha. unfold Heap.best_at.
  by rewrite (bind_run _ _ h h xs) by (unfold Heap.get_uni; by rewrite Ha).
Qed.

Lemma array_length_run (l : Heap.loc) (h : Heap.heap) (es : list RawEntry.t) :
  h !! l = Some (Heap.RawArr es) → Heap.array_length l h = Some (length es, h).
Proof.
  intros Hl. unfold Heap.array_length.
  by rewrite (bind_run _ _ h h es) by (unfold Heap.get_raw; by rewrite Hl).
Qed.

(** A place of the store that was there before keeps its content when
    arrays are added after it. *)
Lemma lookup_old (h ext : Heap.heap) (l : Heap.loc) (a : Heap.array) :
  h !! l = Some a → (h ++ ext) !! l = Some a.
Proof. apply lookup_app_l_Some. Qed.

Lemma lookup_new (h ext : Heap.heap) (n i : nat) :
  n = (length h + i)%nat → (h ++ ext) !! n = ext !! i.
Proof.
  intros ->. rewrite lookup_app_r by lia. f_equal. lia.
Qed.

Ltac old_place H := apply lookup_old; exact H.
Ltac new_place i :=
  rewrite ?length_app; simpl length;
  erewrite (lookup_new _ _ _ i) by lia; reflexivity.

(** The outcome of one call: it never throws, it adds six arrays after
    the ones that exist and changes no other, and its result is the one
    of the function [get_orderbook]. *)
Lemma get_orderbook_run (h : Heap.heap) (ref : Heap.book_ref) (book : Book.t) :
  Heap.holds h ref book →
  Heap.get_orderbook ref h =
    Some ({| Heap.asks := (length h + 2)%nat;
             Heap.bids := (length h + 5)%nat;
             Heap.spread := Result.spread (Result.unified (get_orderbook book));
             Heap.totalOrders := Result.totalOrders (get_orderbook book) |},
          h ++ Heap.built book).
Proof.
  intros (Hyb & Hya & Hnb & Hna).
  unfold Heap.get_orderbook.
  erewrite bind_run by (by apply array_map_run).
  erewrite bind_run by (apply array_map_run; old_place Hnb).
  rewrite <- app_assoc. simpl app.
  erewrite bind_run
    by (apply array_spread_run; [new_place 0%nat | new_place 1%nat]).
  rewrite <- app_assoc. simpl app.
  erewrite bind_run by (apply array_sort_run; new_place 2%nat).
  rewrite length_app. simpl length.
  rewrite insert_app_r_alt by lia.
  replace (length h + 2 - length h)%nat with 2%nat by lia.
  simpl (<[_:=_]> _).
  erewrite bind_run by (apply array_map_run; old_place Hyb).
  erewrite bind_run by (apply array_map_run; rewrite <- app_assoc; old_place Hna).
  rewrite <- !app_assoc. simpl app.
  erewrite bind_run
    by (apply array_spread_run; [new_place 3%nat | new_place 4%nat]).
  rewrite <- !app_assoc. simpl app.
  erewrite bind_run by (apply array_sort_run; new_place 5%nat).
  rewrite !length_app. simpl length.
  rewrite insert_app_r_alt by lia.
  replace (length h + 5 - length h)%nat with 5%nat by lia.
  simpl (<[_:=_]> _).
  erewrite bind_run by (apply best_at_run; new_place 2%nat).
  erewrite bind_run by (apply best_at_run; new_place 5%nat).
  erewrite bind_run by (apply array_length_run; old_place Hyb).
  erewrite bind_run by (apply array_length_run; old_place Hya).
  erewrite bind_run by (apply array_length_run; old_place Hnb).
  erewrite bind_run by (apply array_length_run; old_place Hna).
  reflexivity.
Qed.

End Run.

(** Hence the result of [sort] is the only arrangement that is ordered
    and keeps the order of the elements of equal key: every sort that
    is stable, as ECMAScript requires of [Array.prototype.sort], gives
    this result. *)
Lemma sort_unique {A : Type} (cmp : A → A → Z) (key : A → Z)
    (l l' : list A) :
  (∀ a b, cmp a b ≤ 0 ↔ key a ≤ key b) →
  StronglySorted (λ a b, key a ≤ key b) l' →
  (∀ p, filter (λ a, key a = p) l' = filter (λ a, key a = p) l) →
  l' = sort cmp l.
Proof.
  intros Hk Hs Hf. apply (stable_sorted_unique key); [done| |].
  - by apply sort_sorted.
  - intros p. rewrite Hf. symmetry. by apply sort_stable.
Qed.

(** ** Signs of binary64 results *)

Section Binary64.

Lemma digits2_pos_bounds (p : positive) :
  2 ^ (Zpos (digits2_pos p) - 1) ≤ Zpos p < 2 ^ Zpos (digits2_pos p).
Proof.
  induction p as [p IH|p IH|]; simpl digits2_pos.
  - rewrite Pos2Z.inj_succ.
    replace (Z.succ (Zpos (digits2_pos p)) - 1) with (Z.succ (Zpos (digits2_pos p) - 1)) by lia.
    rewrite !Z.pow_succ_r by lia. lia.
  - rewrite Pos2Z.inj_succ.
    replace (Z.succ (Zpos (digits2_pos p)) - 1) with (Z.succ (Zpos (digits2_pos p) - 1)) by lia.
    rewrite !Z.pow_succ_r by lia. lia.
  - simpl. lia.
Qed.

Lemma shr_1_m (mrs : shr_record) :
  0 ≤ shr_m mrs → shr_m (shr_1 mrs) = shr_m mrs / 2.
Proof.
  destruct mrs as [m r s]. cbn [shr_m]. intros Hm.
  destruct m as [|[p|p|]|p]; cbn [shr_1 shr_m]; try done; try lia.
  - apply (Z.div_unique _ _ _ 1); lia.
  - apply (Z.div_unique _ _ _ 0); lia.
Qed.

Lemma iter_shr_1_m (n : positive) (mrs : shr_record) :
  0 ≤ shr_m mrs →
  shr_m (SpecFloat.iter_pos shr_1 n mrs) = shr_m mrs / 2 ^ Zpos n.
Proof.
  revert mrs. induction n as [n IH|n IH|]; intros mrs Hm; simpl SpecFloat.iter_pos.
  - assert (0 ≤ shr_m (shr_1 mrs)) by (rewrite shr_1_m by done; apply Z.div_pos; lia).
    assert (0 ≤ shr_m (SpecFloat.iter_pos shr_1 n (shr_1 mrs)))
      by (rewrite IH by done; apply Z.div_pos; lia).
    rewrite IH, IH, shr_1_m by done.
    rewrite !Z.div_div by lia. f_equal.
    rewrite <- Z.pow_add_r by lia.
    rewrite <- (Z.pow_1_r 2) at 1.
    rewrite <- Z.pow_add_r by lia. f_equal. lia.
  - assert (0 ≤ shr_m (SpecFloat.iter_pos shr_1 n mrs))
      by (rewrite IH by done; apply Z.div_pos; lia).
    rewrite IH, IH by done.
    rewrite !Z.div_div by lia. f_equal.
    rewrite <- Z.pow_add_r by lia. f_equal. lia.
  - by rewrite shr_1_m.
Qed.

Lemma shr_record_of_loc_m (m : Z) (l : location) :
  shr_m (shr_record_of_loc m l) = m.
Proof. by destruct l as [|[]]. Qed.

Lemma round_nearest_even_ge (m : Z) (l : location) :
  m ≤ round_nearest_even m l.
Proof.
  destruct l as [|[]]; simpl; try lia. destruct (Z.even m); lia.
Qed.

Lemma fexp_eq (e : Z) :
  fexp JS.prec JS.emax e = Z.max (e - 53) (-1074).
Proof. reflexivity. Qed.

(** Shifting a positive mantissa into the format leaves it positive,
    as long as the exponent is not below the least one. *)
Lemma shr_fexp_pos (m e : Z) (l : location) :
  0 < m → -1074 ≤ e →
  0 < shr_m (shr_fexp JS.prec JS.emax m e l).1
  ∧ e ≤ (shr_fexp JS.prec JS.emax m e l).2.
Proof.
  intros Hm He. unfold shr_fexp, shr. rewrite fexp_eq.
  destruct m as [|p|p]; try lia. cbn [Zdigits2].
  pose proof (digits2_pos_bounds p) as [Hlo _].
  destruct (Z.max (Zpos (digits2_pos p) + e - 53) (-1074) - e) as [|n|n] eqn:En;
    cbn [fst snd]; rewrite ?shr_record_of_loc_m; try lia.
  rewrite iter_shr_1_m by (rewrite shr_record_of_loc_m; lia).
  rewrite shr_record_of_loc_m. split; [|lia].
  apply Z.div_str_pos. split; [lia|].
  transitivity (2 ^ (Zpos (digits2_pos p) - 1)); [|done].
  apply Z.pow_le_mono_r; lia.
Qed.

(** Rounding a positive mantissa keeps the sign and never gives zero. *)
Lemma binary_round_aux_pos (s : bool) (m : positive) (e : Z) (l : location) :
  -1074 ≤ e →
  (∃ m' e', binary_round_aux JS.prec JS.emax s (Zpos m) e l = S754_finite s m' e'
            ∧ e ≤ e')
  ∨ binary_round_aux JS.prec JS.emax s (Zpos m) e l = S754_infinity s.
Proof.
  intros He. unfold binary_round_aux.
  pose proof (shr_fexp_pos (Zpos m) e l) as H1.
  destruct (shr_fexp JS.prec JS.emax (Zpos m) e l) as [mrs' e'].
  cbn [fst snd] in H1. destruct H1 as [Hm' He']; [lia|done|].
  pose proof (round_nearest_even_ge (shr_m mrs') (loc_of_shr_record mrs')) as Hr.
  pose proof (shr_fexp_pos (round_nearest_even (shr_m mrs') (loc_of_shr_record mrs'))
                e' loc_Exact) as H2.
  destruct (shr_fexp JS.prec JS.emax _ e' loc_Exact) as [mrs'' e''].
  cbn [fst snd] in H2. destruct H2 as [Hm'' He'']; [lia|lia|].
  destruct (shr_m mrs'') as [|q|q]; try lia.
  destruct (e'' <=? JS.emax - JS.prec); [left|by right].
  exists q, e''. split; [done|lia].
Qed.

(** A negative integer converts to a negative number. *)
Lemma of_Z_neg (p : positive) :
  (∃ m e, JS.of_Z (Zneg p) = S754_finite true m e ∧ -52 ≤ e)
  ∨ JS.of_Z (Zneg p) = S754_infinity true.
Proof.
  unfold JS.of_Z, binary_normalize, binary_round, shl_align.
  rewrite fexp_eq.
  pose proof (Pos2Z.is_pos (digits2_pos p)) as Hd.
  destruct (Z.max (Zpos (digits2_pos p) + 0 - 53) (-1074) - 0) as [|n|n] eqn:En.
  - destruct (binary_round_aux_pos true p 0 loc_Exact) as [(m' & e' & -> & ?)| ->];
      [lia| |by right].
    left. exists m', e'. split; [done|lia].
  - destruct (binary_round_aux_pos true p 0 loc_Exact) as [(m' & e' & -> & ?)| ->];
      [lia| |by right].
    left. exists m', e'. split; [done|lia].
  - destruct (binary_round_aux_pos true (Pos.iter xO p n)
                (Z.max (Zpos (digits2_pos p) + 0 - 53) (-1074)) loc_Exact)
      as [(m' & e' & -> & ?)| ->]; [lia| |by right].
    left. exists m', e'. split; [done|lia].
Qed.

Lemma of_Z_10000 : JS.of_Z 10000 = S754_finite false 5497558138880000 (-39).
Proof. reflexivity. Qed.

(** A negative number divided by 10,000 is negative: the quotient does
    not underflow to zero. *)
Lemma div_10000_neg (m : positive) (e : Z) :
  -52 ≤ e →
  (∃ m' e', JS.div (S754_finite true m e) (JS.of_Z 10000) = S754_finite true m' e')
  ∨ JS.div (S754_finite true m e) (JS.of_Z 10000) = S754_infinity true.
Proof.
  intros He. rewrite of_Z_10000. unfold JS.div, SFdiv, SFdiv_core_binary.
  rewrite fexp_eq. cbn [Zdigits2 xorb].
  change (Zpos (digits2_pos 5497558138880000)) with 53.
  pose proof (digits2_pos_bounds m) as [Hlo _].
  pose proof (Pos2Z.is_pos (digits2_pos m)) as Hd.
  set (d := Zpos (digits2_pos m)) in *.
  set (e' := Z.min (Z.max (d + e - (53 + -39) - 53) (-1074)) (e - -39)).
  assert (-1074 ≤ e') by lia.
  assert (5497558138880000 < 2 ^ 53) as Hmy by reflexivity.
  set (m' := match e - -39 - e' with
             | 0 => Zpos m
             | Zpos _ => Z.shiftl (Zpos m) (e - -39 - e')
             | Zneg _ => 0
             end).
  assert (2 ^ 53 ≤ m') as Hm'.
  { subst m'. destruct (e - -39 - e') as [|n|n] eqn:Es; [| |lia].
    - transitivity (2 ^ (d - 1)); [|done]. apply Z.pow_le_mono_r; lia.
    - rewrite Z.shiftl_mul_pow2 by lia.
      transitivity (2 ^ (d - 1) * 2 ^ Zpos n).
      + rewrite <- Z.pow_add_r by lia. apply Z.pow_le_mono_r; lia.
      + apply Z.mul_le_mono_nonneg_r; [lia|done]. }
  pose proof (Z.div_str_pos m' 5497558138880000) as Hq.
  unfold Z.div in Hq.
  destruct (Z.div_eucl m' 5497558138880000) as [q r]. cbn [fst] in Hq.
  destruct q as [|q|q]; try lia.
  destruct (binary_round_aux_pos true q e' (new_location 5497558138880000 r))
    as [(m'' & e'' & -> & ?)| ->]; [done| |by right].
  left. by exists m'', e''.
Qed.

Lemma toFixed_neg_finite (f : nat) (m : positive) (e : Z) :
  ∃ s, JS.toFixed f (S754_finite true m e) = String "-" s.
Proof. simpl. eauto. Qed.

(** The text of a negative spread starts with a minus sign. *)
Lemma spread_text_neg (d : Z) :
  d < 0 → ∃ s, spread_text d = String "-" s.
Proof.
  intros Hd. destruct d as [|p|p]; try lia. unfold spread_text.
  destruct (of_Z_neg p) as [(m & e & -> & He)| ->].
  - destruct (div_10000_neg m e He) as [(m' & e' & ->)| ->].
    + destruct (toFixed_neg_finite 2 m' e') as [s ->]. simpl. eauto.
    + simpl. eauto.
  - rewrite of_Z_10000. simpl. eauto.
Qed.

End Binary64.

(** ** Integers in binary64 *)

Lemma digits2_pos_of_bounds (p : positive) (k : Z) :
  2 ^ (k - 1) ≤ Zpos p < 2 ^ k → Zpos (digits2_pos p) = k.
Proof.
  intros [Hlo Hhi]. pose proof (digits2_pos_bounds p) as [Dlo Dhi].
  pose proof (Pos2Z.is_pos (digits2_pos p)) as Hd.
  destruct (Z.lt_trichotomy (Zpos (digits2_pos p)) k) as [Hlt|[Heq|Hgt]]; [|done|].
  - assert (2 ^ Zpos (digits2_pos p) ≤ 2 ^ (k - 1))
      by (apply Z.pow_le_mono_r; lia). lia.
  - assert (0 ≤ k).
    { destruct (Z.le_gt_cases 0 k); [done|].
      rewrite (Z.pow_neg_r 2 k) in Hhi by lia. lia. }
    assert (2 ^ k ≤ 2 ^ (Zpos (digits2_pos p) - 1))
      by (apply Z.pow_le_mono_r; lia). lia.
Qed.

Lemma iter_xO (m n : positive) :
  Zpos (Pos.iter xO m n) = Zpos m * 2 ^ Zpos n.
Proof.
  induction n as [|n IH] using Pos.peano_ind.
  - simpl. lia.
  - rewrite Pos.iter_succ, Pos2Z.inj_xO, IH, Pos2Z.inj_succ, Z.pow_succ_r by lia.
    ring.
Qed.

Lemma round_nearest_even_le (m : Z) (l : location) :
  round_nearest_even m l ≤ m + 1.
Proof.
  destruct l as [|[]]; simpl; try lia. destruct (Z.even m); lia.
Qed.

(** A mantissa of 53 bits is not shifted, one of 54 bits is shifted by
    one place. *)
Lemma shr_fexp_53 (m : positive) (e : Z) (l : location) :
  2 ^ 52 ≤ Zpos m < 2 ^ 53 → -1074 ≤ e →
  shr_fexp JS.prec JS.emax (Zpos m) e l = (shr_record_of_loc (Zpos m) l, e).
Proof.
  intros Hm He. unfold shr_fexp. rewrite fexp_eq. cbn [Zdigits2].
  rewrite (digits2_pos_of_bounds m 53) by lia.
  by replace (Z.max (53 + e - 53) (-1074) - e) with 0 by lia.
Qed.

Lemma shr_fexp_54 (m : positive) (e : Z) (l : location) :
  2 ^ 53 ≤ Zpos m < 2 ^ 54 → -1074 ≤ e →
  shr_fexp JS.prec JS.emax (Zpos m) e l
  = (shr_1 (shr_record_of_loc (Zpos m) l), e + 1).
Proof.
  intros Hm He. unfold shr_fexp. rewrite fexp_eq. cbn [Zdigits2].
  rewrite (digits2_pos_of_bounds m 54) by lia.
  by replace (Z.max (54 + e - 53) (-1074) - e) with 1 by lia.
Qed.

Lemma loc_of_shr_record_of_loc (m : Z) (l : location) :
  loc_of_shr_record (shr_record_of_loc m l) = l.
Proof. by destruct l as [|[]]. Qed.

(** A mantissa of 53 bits is kept as it is. *)
Lemma binary_round_aux_exact (s : bool) (m : positive) (e : Z) :
  2 ^ 52 ≤ Zpos m < 2 ^ 53 → -1074 ≤ e ≤ 971 →
  binary_round_aux JS.prec JS.emax s (Zpos m) e loc_Exact = S754_finite s m e.
Proof.
  intros Hm He. unfold binary_round_aux.
  rewrite shr_fexp_53 by lia.
  cbn [shr_record_of_loc shr_m loc_of_shr_record round_nearest_even].
  rewrite shr_fexp_53 by lia. cbn [shr_record_of_loc shr_m].
  unfold JS.emax, JS.prec.
  destruct (Z.leb_spec e (1024 - 53)); [done|lia].
Qed.

(** An integer below 2^53 converts to itself, written with 53 bits. *)
Lemma of_Z_norm (s : bool) (m : positive) :
  Zpos m < 2 ^ 53 →
  ∃ mz ez, binary_round JS.prec JS.emax s m 0 = S754_finite s mz ez
           ∧ 2 ^ 52 ≤ Zpos mz < 2 ^ 53
           ∧ ez = Zpos (digits2_pos m) - 53 ∧ -52 ≤ ez ≤ 0
           ∧ Zpos mz = Zpos m * 2 ^ (- ez).
Proof.
  intros Hm. pose proof (digits2_pos_bounds m) as [Dlo Dhi].
  pose proof (Pos2Z.is_pos (digits2_pos m)) as Hd.
  set (d := Zpos (digits2_pos m)) in *.
  assert (d ≤ 53).
  { destruct (Z.le_gt_cases d 53); [done|].
    assert (2 ^ 53 ≤ 2 ^ (d - 1)) by (apply Z.pow_le_mono_r; lia). lia. }
  unfold binary_round, shl_align. rewrite fexp_eq. fold d.
  replace (Z.max (d + 0 - 53) (-1074) - 0) with (d - 53) by lia.
  replace (Z.max (d + 0 - 53) (-1074)) with (d - 53) by lia.
  destruct (d - 53) as [|k|k] eqn:Ek; [|lia|].
  - assert (d = 53) as Hd53 by lia. rewrite Hd53 in *.
    exists m, 0. rewrite binary_round_aux_exact by (split; try done; lia).
    split_and!; try done; try lia.
  - assert (Zpos k = 53 - d) as Hk by lia.
    pose proof (iter_xO m k) as Hi. rewrite Hk in Hi.
    assert (2 ^ 52 ≤ Zpos (Pos.iter xO m k) < 2 ^ 53) as Hb.
    { rewrite Hi.
      replace (2 ^ 52) with (2 ^ (d - 1) * 2 ^ (53 - d))
        by (rewrite <- Z.pow_add_r by lia; f_equal; lia).
      replace (2 ^ 53) with (2 ^ d * 2 ^ (53 - d))
        by (rewrite <- Z.pow_add_r by lia; f_equal; lia).
      assert (0 < 2 ^ (53 - d)) by (apply Z.pow_pos_nonneg; lia).
      split; [apply Z.mul_le_mono_nonneg_r; lia|apply Z.mul_lt_mono_pos_r; lia]. }
    exists (Pos.iter xO m k), (Zneg k).
    rewrite binary_round_aux_exact by (split; try done; lia).
    split_and!; try done; try lia.
    rewrite Hi. f_equal. f_equal. lia.
Qed.


(** ** Subtraction of integers *)

Lemma digits2_pos_shift (m k : positive) :
  Zpos (digits2_pos (Pos.iter xO m k)) = Zpos (digits2_pos m) + Zpos k.
Proof.
  induction k as [|k IH] using Pos.peano_ind.
  - simpl. lia.
  - rewrite Pos.iter_succ. cbn [digits2_pos]. rewrite Pos2Z.inj_succ, IH. lia.
Qed.

Lemma shr_1_even (x : Z) :
  shr_1 {| shr_m := 2 * x; shr_r := false; shr_s := false |}
  = {| shr_m := x; shr_r := false; shr_s := false |}.
Proof. by destruct x. Qed.

(** Shifting out zeros is exact. *)
Lemma iter_shr_1_exact (j : positive) (x : Z) :
  SpecFloat.iter_pos shr_1 j
    {| shr_m := x * 2 ^ Zpos j; shr_r := false; shr_s := false |}
  = {| shr_m := x; shr_r := false; shr_s := false |}.
Proof.
  revert x. induction j as [j IH|j IH|]; intros x.
  - assert (x * 2 ^ Zpos j~1 = 2 * ((x * 2 ^ Zpos j) * 2 ^ Zpos j)) as ->.
    { rewrite <- Z.mul_assoc, <- Z.pow_add_r by lia.
      rewrite (Z.mul_comm 2), <- Z.mul_assoc. f_equal.
      rewrite <- (Z.pow_1_r 2) at 3. rewrite <- Z.pow_add_r by lia.
      f_equal. lia. }
    cbn [SpecFloat.iter_pos]. by rewrite shr_1_even, !IH.
  - assert (x * 2 ^ Zpos j~0 = (x * 2 ^ Zpos j) * 2 ^ Zpos j) as ->.
    { rewrite <- Z.mul_assoc, <- Z.pow_add_r by lia. do 2 f_equal. lia. }
    cbn [SpecFloat.iter_pos]. by rewrite !IH.
  - rewrite Z.pow_1_r, Z.mul_comm. apply shr_1_even.
Qed.

Lemma shl_align_fst (m : positive) (e e' : Z) :
  e' ≤ e → Zpos (shl_align m e e').1 = Zpos m * 2 ^ (e - e').
Proof.
  intros He. unfold shl_align.
  destruct (e' - e) as [|d|d] eqn:Ed; cbn [fst]; try lia.
  - replace (e - e') with 0 by lia. lia.
  - rewrite iter_xO. do 2 f_equal. lia.
Qed.

(** A mantissa with zeros at its end rounds like the mantissa without
    them. *)
Lemma binary_round_shift (s : bool) (m M : positive) (j : Z) :
  Zpos m < 2 ^ 53 → 0 ≤ j → Zpos M = Zpos m * 2 ^ j →
  binary_round JS.prec JS.emax s M (- j) = binary_round JS.prec JS.emax s m 0.
Proof.
  intros Hm Hj HM.
  destruct (of_Z_norm s m Hm) as (mz & ez & -> & Hmz & Hez & Hez' & Hv).
  pose proof (digits2_pos_bounds m) as [Dlo Dhi].
  pose proof (Pos2Z.is_pos (digits2_pos m)) as Hd.
  set (d := Zpos (digits2_pos m)) in *.
  assert (0 < 2 ^ j) by (apply Z.pow_pos_nonneg; lia).
  assert (Zpos (digits2_pos M) = d + j) as HdM.
  { apply digits2_pos_of_bounds. rewrite HM.
    replace (d + j - 1) with (d - 1 + j) by lia.
    rewrite !Z.pow_add_r by lia.
    split; [apply Z.mul_le_mono_nonneg_r; lia|apply Z.mul_lt_mono_pos_r; lia]. }
  unfold binary_round, shl_align. rewrite fexp_eq, HdM.
  replace (Z.max (d + j + - j - 53) (-1074)) with ez by lia.
  destruct (ez - - j) as [|t|t] eqn:Et.
  - assert (M = mz) as ->.
    { apply Pos2Z.inj. rewrite HM, Hv. do 2 f_equal. lia. }
    replace (- j) with ez by lia.
    apply binary_round_aux_exact; [done|lia].
  - assert (Zpos M = Zpos mz * 2 ^ Zpos t) as HMt.
    { rewrite HM, Hv, <- Z.mul_assoc, <- Z.pow_add_r by lia.
      do 2 f_equal. lia. }
    unfold binary_round_aux, shr_fexp at 1. rewrite fexp_eq. cbn [Zdigits2].
    rewrite HdM.
    replace (Z.max (d + j + - j - 53) (-1074) - - j) with (Zpos t) by lia.
    cbn [shr shr_record_of_loc]. rewrite HMt, iter_shr_1_exact.
    cbn [shr_m loc_of_shr_record round_nearest_even].
    rewrite shr_fexp_53 by lia. cbn [shr_record_of_loc shr_m].
    unfold JS.emax, JS.prec.
    destruct (Z.leb_spec (- j + Zpos t) (1024 - 53)); [|lia].
    f_equal. lia.
  - assert (Pos.iter xO M t = mz) as ->.
    { apply Pos2Z.inj. rewrite iter_xO, HM, Hv, <- Z.mul_assoc, <- Z.pow_add_r by lia.
      do 2 f_equal. lia. }
    apply binary_round_aux_exact; [done|lia].
Qed.

Lemma to_Z_round (s : bool) (m : positive) :
  Zpos m < 2 ^ 53 →
  JS.to_Z (binary_round JS.prec JS.emax s m 0) = if s then Zneg m else Zpos m.
Proof.
  intros Hm.
  destruct (of_Z_norm s m Hm) as (mz & ez & -> & Hmz & Hez & Hez' & Hv).
  unfold JS.to_Z. rewrite Hv.
  destruct (Z.leb_spec 0 ez).
  - replace ez with 0 by lia. change (2 ^ (- 0)) with 1. change (2 ^ 0) with 1.
    destruct s; lia.
  - rewrite Z.div_mul by (apply Z.pow_nonzero; lia). destruct s; lia.
Qed.

Lemma to_Z_of_Z (z : Z) : - 2 ^ 53 < z < 2 ^ 53 → JS.to_Z (JS.of_Z z) = z.
Proof.
  intros Hz. destruct z as [|p|p]; [done| |];
    unfold JS.of_Z, binary_normalize; rewrite to_Z_round; try done; lia.
Qed.

(** The difference of two safe integers, when it is a safe integer, is
    exact. *)
Lemma sub_exact (a b : Z) :
  - 2 ^ 53 < a < 2 ^ 53 → - 2 ^ 53 < b < 2 ^ 53 →
  - 2 ^ 53 < a - b < 2 ^ 53 → a ≠ 0 → b ≠ 0 →
  JS.sub (JS.of_Z a) (JS.of_Z b) = JS.of_Z (a - b).
Proof.
  intros Ha Hb Hab Ha0 Hb0.
  assert (∀ z, z ≠ 0 → - 2 ^ 53 < z < 2 ^ 53 →
          ∃ s m mz ez, JS.of_Z z = S754_finite s mz ez
                       ∧ z = (if s then Zneg m else Zpos m)
                       ∧ -52 ≤ ez ≤ 0 ∧ Zpos mz = Zpos m * 2 ^ (- ez)) as Hof.
  { intros z Hz0 Hz. destruct z as [|p|p]; [done| |].
    - destruct (of_Z_norm false p) as (mz & ez & E & _ & _ & ? & ?); [lia|].
      by exists false, p, mz, ez.
    - destruct (of_Z_norm true p) as (mz & ez & E & _ & _ & ? & ?); [lia|].
      by exists true, p, mz, ez. }
  destruct (Hof a Ha0 Ha) as (sa & ma & mza & ea & -> & Ea & Hea & Hva).
  destruct (Hof b Hb0 Hb) as (sb & mb & mzb & eb & -> & Eb & Heb & Hvb).
  unfold JS.sub, SFsub.
  rewrite !shl_align_fst by lia.
  set (ez := Z.min ea eb).
  assert (cond_Zopp sa (Zpos mza * 2 ^ (ea - ez))
          - cond_Zopp sb (Zpos mzb * 2 ^ (eb - ez))
          = (a - b) * 2 ^ (- ez)) as ->.
  { rewrite Hva, Hvb, <- !Z.mul_assoc, <- !Z.pow_add_r by lia.
    replace (- ea + (ea - ez)) with (- ez) by lia.
    replace (- eb + (eb - ez)) with (- ez) by lia.
    rewrite Ea, Eb. destruct sa, sb; cbn [cond_Zopp]; lia. }
  assert (0 < 2 ^ (- ez)) by (apply Z.pow_pos_nonneg; lia).
  unfold JS.of_Z, binary_normalize.
  destruct (a - b) as [|d|d] eqn:Ed.
  - done.
  - destruct (Zpos d * 2 ^ (- ez)) as [|D|D] eqn:ED; try lia.
    replace ez with (- (- ez)) at 1 by lia.
    apply binary_round_shift; lia.
  - destruct (Zneg d * 2 ^ (- ez)) as [|D|D] eqn:ED; try lia.
    replace ez with (- (- ez)) at 1 by lia.
    apply binary_round_shift; lia.
Qed.

Lemma complement_exact (p : Z) :
  1000000 - 2 ^ 53 < p < 2 ^ 53 → complement p = 1000000 - p.
Proof.
  intros Hp. unfold complement.
  destruct (decide (p = 0)) as [->|Hp0]; [reflexivity|].
  rewrite sub_exact by lia. apply to_Z_of_Z. lia.
Qed.

Example complement_rounds :
  complement (-9007199254740991) = 9007199255740992
  ∧ complement 576460752304423552 = -576460752303423488.
Proof. split; vm_compute; reflexivity. Qed.

(** ** The two sides of the unified book *)

Abbreviation asks_of book := (Result.asks (Result.unified (get_orderbook book))).
Abbreviation bids_of book := (Result.bids (Result.unified (get_orderbook book))).
Abbreviation spread_of_book book :=
  (Result.spread (Result.unified (get_orderbook book))).

Lemma asc_key (a b : UnifiedEntry.t) :
  asc a b ≤ 0 ↔ UnifiedEntry.priceRaw a ≤ UnifiedEntry.priceRaw b.
Proof. unfold asc. lia. Qed.

Lemma desc_key (a b : UnifiedEntry.t) :
  desc a b ≤ 0 ↔ - UnifiedEntry.priceRaw a ≤ - UnifiedEntry.priceRaw b.
Proof. unfold desc. lia. Qed.

Lemma asks_perm (book : Book.t) : asks_of book ≡ₚ asks_merged book.
Proof. apply sort_perm. Qed.

Lemma bids_perm (book : Book.t) : bids_of book ≡ₚ bids_merged book.
Proof. apply sort_perm. Qed.

Lemma elem_of_asks (book : Book.t) (u : UnifiedEntry.t) :
  u ∈ asks_of book ↔
    (∃ e, e ∈ Book.asks (Book.yes book) ∧ u = toUnified e YES_ask None)
    ∨ (∃ e, e ∈ Book.bids (Book.no book)
            ∧ u = toUnified e NO_bid (Some (complement (RawEntry.price e)))).
Proof.
  rewrite asks_perm. unfold asks_merged.
  rewrite elem_of_app, !list_elem_of_fmap.
  split; (intros [(e & H1 & H2)|(e & H1 & H2)]; [left|right]; by exists e).
Qed.

Lemma elem_of_bids (book : Book.t) (u : UnifiedEntry.t) :
  u ∈ bids_of book ↔
    (∃ e, e ∈ Book.bids (Book.yes book) ∧ u = toUnified e YES_bid None)
    ∨ (∃ e, e ∈ Book.asks (Book.no book)
            ∧ u = toUnified e NO_ask (Some (complement (RawEntry.price e)))).
Proof.
  rewrite bids_perm. unfold bids_merged.
  rewrite elem_of_app, !list_elem_of_fmap.
  split; (intros [(e & H1 & H2)|(e & H1 & H2)]; [left|right]; by exists e).
Qed.

Lemma asks_sorted (book : Book.t) :
  StronglySorted
    (λ a b, UnifiedEntry.priceRaw a ≤ UnifiedEntry.priceRaw b) (asks_of book).
Proof. apply (sort_sorted asc UnifiedEntry.priceRaw asc_key). Qed.

Lemma bids_sorted (book : Book.t) :
  StronglySorted
    (λ a b, UnifiedEntry.priceRaw b ≤ UnifiedEntry.priceRaw a) (bids_of book).
Proof.
  pose proof (sort_sorted desc (λ u, - UnifiedEntry.priceRaw u) desc_key
                (bids_merged book)) as H.
  change (sort desc (bids_merged book)) with (bids_of book) in H.
  induction H as [|u l Hl IH Hu]; constructor; [done|].
  eapply Forall_impl; [exact Hu|]. simpl. intros; lia.
Qed.

(** ** The numbers of the handler

    On micro-unit amounts the binary64 subtraction is the subtraction
    of integers, and the texts are the ones the handler prints. *)

Example complement_is_exact :
  SFsub JS.prec JS.emax (JS.of_Z 1000000) (JS.of_Z 350000) = JS.of_Z 650000
  ∧ SFsub JS.prec JS.emax (JS.of_Z 1000000) (JS.of_Z 0) = JS.of_Z 1000000
  ∧ SFsub JS.prec JS.emax (JS.of_Z 1000000) (JS.of_Z 1000000) = JS.of_Z 0
  ∧ SFsub JS.prec JS.emax (JS.of_Z 600000) (JS.of_Z 480000) = JS.of_Z 120000
  ∧ SFsub JS.prec JS.emax (JS.of_Z 500000) (JS.of_Z 500020) = JS.of_Z (-20).
Proof. split_and!; vm_compute; reflexivity. Qed.

Example toFixed_texts :
  JS.toFixed 2 (JS.div (JS.of_Z 1005) (JS.of_Z 1000)) = "1.00"
  ∧ JS.toFixed 2 (JS.div (JS.of_Z 12345678) (JS.of_Z 1000000)) = "12.35"
  ∧ JS.toFixed 2 (JS.div (JS.of_Z 5000) (JS.of_Z 1000000)) = "0.01"
  ∧ JS.toFixed 2 (JS.div (JS.of_Z (-20)) (JS.of_Z 10000)) = "-0.00"
  ∧ JS.toFixed 2 (JS.of_Z 0) = "0.00"
  ∧ JS.toFixed 2 (JS.of_Z (10 ^ 21)) = "1e+21"
  ∧ JS.toFixed 2 (JS.of_Z (2 ^ 80)) = "1.2089258196146292e+24".
Proof. split_and!; vm_compute; reflexivity. Qed.

Example sample_book_result :
  map UnifiedEntry.priceRaw (asks_of sample_book) = [600000; 650000]
  ∧ map UnifiedEntry.price (asks_of sample_book) = ["60.00¢"; "65.00¢"]
  ∧ map UnifiedEntry.shares (asks_of sample_book) = ["1.00"; "2.00"]
  ∧ map UnifiedEntry.total (asks_of sample_book) = ["$0.60"; "$1.30"]
  ∧ map UnifiedEntry.priceRaw (bids_of sample_book) = [480000]
  ∧ spread_of_book sample_book = "12.00¢"
  ∧ Result.totalOrders (get_orderbook sample_book) = 3%nat.
Proof. split_and!; vm_compute; reflexivity. Qed.

(** ** The claims *)

(** C1, as the code has it.  Every entry of the NO bids is in the
    unified asks, tagged "NO bid (= YES ask)", and every entry of the NO
    asks is in the unified bids, tagged "NO ask (= YES bid)", with
    [priceRaw] the binary64 value of 1,000,000 minus its price;
    conversely an entry with one of these two tags has that value for
    the entry it was made from.  The value is exactly 1,000,000 minus
    the price whenever the price and the result are safe integers, as
    all prices from 0 to 1,000,000 are.  Nothing is special at the
    boundary: a NO bid at price 0 gives [priceRaw] 1,000,000 and a NO
    ask at price 1,000,000 gives [priceRaw] 0. *)
Theorem complement_prices (book : Book.t) :
  (∀ e, e ∈ Book.bids (Book.no book) →
     ∃ u, u ∈ asks_of book
          ∧ UnifiedEntry.source u = NO_bid
          ∧ UnifiedEntry.escrowAppId u = RawEntry.escrowAppId e
          ∧ UnifiedEntry.owner u = RawEntry.owner e
          ∧ UnifiedEntry.priceRaw u = complement (RawEntry.price e)
          ∧ (1000000 - 2 ^ 53 < RawEntry.price e < 2 ^ 53 →
             UnifiedEntry.priceRaw u = 1000000 - RawEntry.price e)
          ∧ (RawEntry.price e = 0 → UnifiedEntry.priceRaw u = 1000000))
  ∧ (∀ e, e ∈ Book.asks (Book.no book) →
     ∃ u, u ∈ bids_of book
          ∧ UnifiedEntry.source u = NO_ask
          ∧ UnifiedEntry.escrowAppId u = RawEntry.escrowAppId e
          ∧ UnifiedEntry.owner u = RawEntry.owner e
          ∧ UnifiedEntry.priceRaw u = complement (RawEntry.price e)
          ∧ (1000000 - 2 ^ 53 < RawEntry.price e < 2 ^ 53 →
             UnifiedEntry.priceRaw u = 1000000 - RawEntry.price e)
          ∧ (RawEntry.price e = 1000000 → UnifiedEntry.priceRaw u = 0))
  ∧ (∀ u, u ∈ asks_of book → UnifiedEntry.source u = NO_bid →
     ∃ e, e ∈ Book.bids (Book.no book)
          ∧ UnifiedEntry.escrowAppId u = RawEntry.escrowAppId e
          ∧ UnifiedEntry.owner u = RawEntry.owner e
          ∧ UnifiedEntry.priceRaw u = complement (RawEntry.price e)
          ∧ (1000000 - 2 ^ 53 < RawEntry.price e < 2 ^ 53 →
             UnifiedEntry.priceRaw u = 1000000 - RawEntry.price e))
  ∧ (∀ u, u ∈ bids_of book → UnifiedEntry.source u = NO_ask →
     ∃ e, e ∈ Book.asks (Book.no book)
          ∧ UnifiedEntry.escrowAppId u = RawEntry.escrowAppId e
          ∧ UnifiedEntry.owner u = RawEntry.owner e
          ∧ UnifiedEntry.priceRaw u = complement (RawEntry.price e)
          ∧ (1000000 - 2 ^ 53 < RawEntry.price e < 2 ^ 53 →
             UnifiedEntry.priceRaw u = 1000000 - RawEntry.price e)).
Proof.
  split_and!.
  - intros e He.
    exists (toUnified e NO_bid (Some (complement (RawEntry.price e)))).
    split; [apply elem_of_asks; right; by exists e|].
    cbn [toUnified UnifiedEntry.source UnifiedEntry.escrowAppId
         UnifiedEntry.owner UnifiedEntry.priceRaw default].
    split_and!; try done.
    + apply complement_exact.
    + intros ->. reflexivity.
  - intros e He.
    exists (toUnified e NO_ask (Some (complement (RawEntry.price e)))).
    split; [apply elem_of_bids; right; by exists e|].
    cbn [toUnified UnifiedEntry.source UnifiedEntry.escrowAppId
         UnifiedEntry.owner UnifiedEntry.priceRaw default].
    split_and!; try done.
    + apply complement_exact.
    + intros ->. reflexivity.
  - intros u Hu Hs. apply elem_of_asks in Hu as [(e & He & ->)|(e & He & ->)].
    + discriminate Hs.
    + exists e.
      cbn [toUnified UnifiedEntry.escrowAppId UnifiedEntry.owner
           UnifiedEntry.priceRaw default].
      split_and!; try done. apply complement_exact.
  - intros u Hu Hs. apply elem_of_bids in Hu as [(e & He & ->)|(e & He & ->)].
    + exists e. discriminate Hs.
    + exists e.
      cbn [toUnified UnifiedEntry.escrowAppId UnifiedEntry.owner
           UnifiedEntry.priceRaw default].
      split_and!; try done. apply complement_exact.
Qed.

(** C2. The two unified sides together have as many entries as the four
    raw sides, [totalOrders] is that number, and each unified side is a
    rearrangement of the images of its two raw sides: every raw entry
    gives one unified entry, none is repeated and none is lost. *)
Theorem conservation (book : Book.t) :
  let n := (length (Book.bids (Book.yes book))
            + length (Book.asks (Book.yes book))
            + length (Book.bids (Book.no book))
            + length (Book.asks (Book.no book)))%nat in
  (length (asks_of book) + length (bids_of book))%nat = n
  ∧ Result.totalOrders (get_orderbook book) = n
  ∧ asks_of book ≡ₚ
      map (λ e, toUnified e YES_ask None) (Book.asks (Book.yes book))
      ++ map (λ e, toUnified e NO_bid (Some (complement (RawEntry.price e))))
           (Book.bids (Book.no book))
  ∧ bids_of book ≡ₚ
      map (λ e, toUnified e YES_bid None) (Book.bids (Book.yes book))
      ++ map (λ e, toUnified e NO_ask (Some (complement (RawEntry.price e))))
           (Book.asks (Book.no book)).
Proof.
  cbv zeta.
  split; [|split; [reflexivity|split; [apply asks_perm|apply bids_perm]]].
  rewrite asks_perm, bids_perm. unfold asks_merged, bids_merged.
  rewrite !length_app, !length_map. lia.
Qed.

(** C3. An entry of the YES asks is in the unified asks and an entry of
    the YES bids is in the unified bids with [priceRaw] equal to its
    price, and an entry tagged "YES ask" or "YES bid" has the price of
    the entry it was made from. *)
Theorem pass_through_prices (book : Book.t) :
  (∀ e, e ∈ Book.asks (Book.yes book) →
     ∃ u, u ∈ asks_of book ∧ u = toUnified e YES_ask None
          ∧ UnifiedEntry.source u = YES_ask
          ∧ UnifiedEntry.priceRaw u = RawEntry.price e)
  ∧ (∀ e, e ∈ Book.bids (Book.yes book) →
     ∃ u, u ∈ bids_of book ∧ u = toUnified e YES_bid None
          ∧ UnifiedEntry.source u = YES_bid
          ∧ UnifiedEntry.priceRaw u = RawEntry.price e)
  ∧ (∀ u, u ∈ asks_of book → UnifiedEntry.source u = YES_ask →
     ∃ e, e ∈ Book.asks (Book.yes book)
          ∧ UnifiedEntry.escrowAppId u = RawEntry.escrowAppId e
          ∧ UnifiedEntry.owner u = RawEntry.owner e
          ∧ UnifiedEntry.priceRaw u = RawEntry.price e)
  ∧ (∀ u, u ∈ bids_of book → UnifiedEntry.source u = YES_bid →
     ∃ e, e ∈ Book.bids (Book.yes book)
          ∧ UnifiedEntry.escrowAppId u = RawEntry.escrowAppId e
          ∧ UnifiedEntry.owner u = RawEntry.owner e
          ∧ UnifiedEntry.priceRaw u = RawEntry.price e).
Proof.
  repeat split.
  - intros e He. eexists; split; [|split; [reflexivity|done]].
    apply elem_of_asks. left. eauto.
  - intros e He. eexists; split; [|split; [reflexivity|done]].
    apply elem_of_bids. left. eauto.
  - intros u Hu Hs. apply elem_of_asks in Hu as [(e & He & ->)|(e & He & ->)].
    + exists e. done.
    + discriminate Hs.
  - intros u Hu Hs. apply elem_of_bids in Hu as [(e & He & ->)|(e & He & ->)].
    + exists e. done.
    + discriminate Hs.
Qed.

(** C5. Whatever the order of the four raw sides, the unified asks are
    in non-decreasing order of [priceRaw] and the unified bids are in
    non-increasing order of [priceRaw]. *)
Theorem sort_order (book : Book.t) :
  StronglySorted
    (λ a b, UnifiedEntry.priceRaw a ≤ UnifiedEntry.priceRaw b) (asks_of book)
  ∧ StronglySorted
      (λ a b, UnifiedEntry.priceRaw b ≤ UnifiedEntry.priceRaw a) (bids_of book).
Proof. split; [apply asks_sorted|apply bids_sorted]. Qed.

Lemma complement_prices_witness :
  ∃ u v, u ∈ asks_of boundary_book ∧ UnifiedEntry.priceRaw u = 1000000
         ∧ v ∈ bids_of boundary_book ∧ UnifiedEntry.priceRaw v = 0
         ∧ UnifiedEntry.priceRaw v = 1000000 - 1000000.
Proof.
  destruct (complement_prices boundary_book) as (Hb & Ha & _).
  destruct (Hb (entry 0 1000000)) as (u & Hu & _ & _ & _ & _ & _ & Hu0); [left|].
  destruct (Ha (entry 1000000 1000000))
    as (v & Hv & _ & _ & _ & _ & Hvr & Hv0); [left|].
  exists u, v.
  split_and!; [exact Hu|apply Hu0; reflexivity|exact Hv|apply Hv0; reflexivity|].
  apply Hvr. simpl. lia.
Defined.

(** C1, as the claim states it, fails beyond the safe integers: for a NO
    bid at price -9007199254740991 the unified ask has [priceRaw]
    9007199255740992, and 1,000,000 minus the price is
    9007199255740991; for a NO ask at price 576460752304423552 the
    unified bid has [priceRaw] -576460752303423488, and 1,000,000 minus
    the price is -576460752303423552. *)
Lemma complement_is_rounded :
  map UnifiedEntry.priceRaw
    (asks_of (book_of [] [] [entry (-9007199254740991) 1000000] []))
  = [9007199255740992]
  ∧ 1000000 - (-9007199254740991) = 9007199255740991
  ∧ map UnifiedEntry.priceRaw
      (bids_of (book_of [] [] [] [entry 576460752304423552 1000000]))
    = [-576460752303423488]
  ∧ 1000000 - 576460752304423552 = -576460752303423552
  ∧ ¬ (∀ book e, e ∈ Book.bids (Book.no book) →
         ∃ u, u ∈ asks_of book
              ∧ UnifiedEntry.priceRaw u = 1000000 - RawEntry.price e).
Proof.
  split_and!; [vm_compute; reflexivity..|].
  intros H.
  destruct (H (book_of [] [] [entry (-9007199254740991) 1000000] [])
              (entry (-9007199254740991) 1000000)) as (u & Hu & Hp); [left|].
  assert (complement (-9007199254740991) = 9007199255740992) as E
    by (vm_compute; reflexivity).
  apply elem_of_asks in Hu as [(e & He & ->)|(e & He & ->)].
  - by apply elem_of_nil in He.
  - apply list_elem_of_singleton in He as ->.
    cbn [toUnified UnifiedEntry.priceRaw default entry RawEntry.price] in Hp.
    rewrite E in Hp. cbv [id] in Hp. lia.
Qed.

Lemma pass_through_prices_witness :
  ∃ u v, u ∈ asks_of sample_book ∧ UnifiedEntry.priceRaw u = 600000
         ∧ v ∈ bids_of sample_book ∧ UnifiedEntry.priceRaw v = 480000.
Proof.
  destruct (pass_through_prices sample_book) as (Ha & Hb & _).
  destruct (Ha (entry 600000 1000000)) as (u & Hu & _ & _ & Hu0); [left|].
  destruct (Hb (entry 480000 1000000)) as (v & Hv & _ & _ & Hv0); [left|].
  exists u, v. repeat split; [exact Hu|exact Hu0|exact Hv|exact Hv0].
Defined.

(** ** What leaves the handler as text *)

Lemma append_cent_not_NA (s : string) : s +:+ "¢" ≠ "N/A".
Proof.
  destruct s as [|c1 [|c2 [|c3 s]]]; simpl; intros H; try discriminate H.
  injection H as _ _ _ H. destruct s; discriminate H.
Qed.

Lemma spread_text_not_NA (d : Z) : spread_text d ≠ "N/A".
Proof. apply append_cent_not_NA. Qed.

Lemma spread_cons (book : Book.t) (a b : UnifiedEntry.t)
    (la lb : list UnifiedEntry.t) :
  asks_of book = a :: la → bids_of book = b :: lb →
  spread_of_book book
  = spread_text (UnifiedEntry.priceRaw a - UnifiedEntry.priceRaw b).
Proof.
  intros Ha Hb. cbn [get_orderbook Result.spread Result.unified].
  cbn [get_orderbook Result.asks Result.bids Result.unified] in Ha, Hb.
  by rewrite Ha, Hb.
Qed.

Lemma spread_nil (book : Book.t) :
  asks_of book = [] ∨ bids_of book = [] → spread_of_book book = "N/A".
Proof.
  cbn [get_orderbook Result.spread Result.asks Result.bids Result.unified].
  intros [-> | ->]; [done|]. by destruct (best _).
Qed.

(** [store_of] does hold the book. *)
Lemma holds_store_of (book : Book.t) :
  Heap.holds (store_of book) ref_of_store book.
Proof. by repeat split. Qed.

(** A call on a store that holds the book does not throw, and its
    result refers to arrays that hold the two unified sides. *)
Lemma run_result (book : Book.t) (h : Heap.heap) (ref : Heap.book_ref) :
  Heap.holds h ref book →
  ∃ res h', Heap.get_orderbook ref h = Some (res, h')
    ∧ h' = h ++ Heap.built book
    ∧ h' !! Heap.asks res = Some (Heap.UniArr (asks_of book))
    ∧ h' !! Heap.bids res = Some (Heap.UniArr (bids_of book))
    ∧ Heap.spread res = spread_of_book book
    ∧ Heap.totalOrders res = Result.totalOrders (get_orderbook book)
    ∧ (length h ≤ Heap.asks res)%nat ∧ (length h ≤ Heap.bids res)%nat.
Proof.
  intros Hh. eexists _, _. split; [by apply get_orderbook_run|].
  cbn [Heap.asks Heap.bids Heap.spread Heap.totalOrders].
  repeat split; try lia.
  - by rewrite (lookup_new _ _ _ 2).
  - by rewrite (lookup_new _ _ _ 5).
Qed.


(** C4, as the code has it.  Of the numbers of an entry only [priceRaw]
    leaves as an integer in micro-units: it is the price of the raw
    entry the unified entry was made from, or the binary64 value of
    1,000,000 minus it, which is exactly 1,000,000 minus the price
    whenever the price and the result are safe integers; [escrowAppId]
    and [owner] are carried through unchanged.  The quantity does not
    leave as a number: [shares] is the text of quantity / 1,000,000
    with two decimals.  The spread is the text of
    (best ask - best bid) / 10,000 with two decimals followed by the
    cent sign, or "N/A". *)
Theorem fields_out (book : Book.t) :
  (∀ u, u ∈ asks_of book ∨ u ∈ bids_of book →
     ∃ e, (e ∈ Book.asks (Book.yes book) ∨ e ∈ Book.bids (Book.no book)
           ∨ e ∈ Book.bids (Book.yes book) ∨ e ∈ Book.asks (Book.no book))
          ∧ (UnifiedEntry.priceRaw u = RawEntry.price e
             ∨ UnifiedEntry.priceRaw u = complement (RawEntry.price e))
          ∧ (1000000 - 2 ^ 53 < RawEntry.price e < 2 ^ 53 →
             UnifiedEntry.priceRaw u = RawEntry.price e
             ∨ UnifiedEntry.priceRaw u = 1000000 - RawEntry.price e)
          ∧ UnifiedEntry.escrowAppId u = RawEntry.escrowAppId e
          ∧ UnifiedEntry.owner u = RawEntry.owner e
          ∧ UnifiedEntry.shares u
            = JS.toFixed 2 (JS.div (JS.of_Z (RawEntry.quantity e))
                              (JS.of_Z 1000000)))
  ∧ (spread_of_book book = "N/A"
     ∨ ∃ a b, best (asks_of book) = Some a ∧ best (bids_of book) = Some b
              ∧ spread_of_book book
                = JS.toFixed 2 (JS.div (JS.of_Z (a - b)) (JS.of_Z 10000))
                  +:+ "¢").
Proof.
  split.
  - intros u [Hu|Hu].
    + apply elem_of_asks in Hu as [(e & He & ->)|(e & He & ->)];
        exists e; cbn [toUnified UnifiedEntry.priceRaw UnifiedEntry.shares
                       UnifiedEntry.escrowAppId UnifiedEntry.owner default];
        split_and!; auto.
      intros Hr. right. by apply complement_exact.
    + apply elem_of_bids in Hu as [(e & He & ->)|(e & He & ->)];
        exists e; cbn [toUnified UnifiedEntry.priceRaw UnifiedEntry.shares
                       UnifiedEntry.escrowAppId UnifiedEntry.owner default];
        split_and!; auto.
      intros Hr. right. by apply complement_exact.
  - cbn [get_orderbook Result.spread Result.asks Result.bids Result.unified].
    destruct (best (sort asc (asks_merged book))) as [a|]; [|by left].
    destruct (best (sort desc (bids_merged book))) as [b|]; [|by left].
    right. by exists a, b.
Qed.

Lemma fields_out_witness :
  ∃ e, (e ∈ Book.asks (Book.yes sample_book)
        ∨ e ∈ Book.bids (Book.no sample_book)
        ∨ e ∈ Book.bids (Book.yes sample_book)
        ∨ e ∈ Book.asks (Book.no sample_book))
       ∧ (650000 = RawEntry.price e ∨ 650000 = complement (RawEntry.price e))
       ∧ (1000000 - 2 ^ 53 < RawEntry.price e < 2 ^ 53 →
          650000 = RawEntry.price e ∨ 650000 = 1000000 - RawEntry.price e)
       ∧ 7 = RawEntry.escrowAppId e
       ∧ "OWNER" = RawEntry.owner e
       ∧ "2.00" = JS.toFixed 2 (JS.div (JS.of_Z (RawEntry.quantity e))
                                  (JS.of_Z 1000000)).
Proof.
  apply (proj1 (fields_out sample_book)
           (toUnified (entry 350000 2000000) NO_bid (Some 650000))).
  left. vm_compute. right. left.
Defined.

(** C4, as the claim states it, fails: two entries whose quantities
    differ by one micro-unit give the same unified entry, so a unified
    entry does not carry the quantity; and the spread of 120,000
    micro-units of the specification's example leaves as "12.00¢". *)
Lemma quantity_and_spread_leave_as_text :
  RawEntry.quantity (entry 500000 1000000)
    ≠ RawEntry.quantity (entry 500000 1000001)
  ∧ toUnified (entry 500000 1000000) YES_ask None
    = toUnified (entry 500000 1000001) YES_ask None
  ∧ UnifiedEntry.shares (toUnified (entry 500000 1000001) YES_ask None) = "1.00"
  ∧ best (asks_of sample_book) = Some 600000
  ∧ best (bids_of sample_book) = Some 480000
  ∧ spread_of_book sample_book = "12.00¢"
  ∧ ¬ (∃ quantity_of : UnifiedEntry.t → Z,
         ∀ e, quantity_of (toUnified e YES_ask None) = RawEntry.quantity e).
Proof.
  assert (toUnified (entry 500000 1000000) YES_ask None
          = toUnified (entry 500000 1000001) YES_ask None) as Heq
    by (vm_compute; reflexivity).
  split_and!; [discriminate|exact Heq|..| ];
    [vm_compute; reflexivity..|].
  intros (q & Hq).
  pose proof (Hq (entry 500000 1000000)) as H1.
  pose proof (Hq (entry 500000 1000001)) as H2.
  rewrite Heq, H2 in H1. discriminate H1.
Qed.

(** C6. Two calls on the same book, in any two stores that hold it, in
    particular one call after the other, return arrays with the same
    entries in the same order, the same spread and the same count.
    Among entries of equal [priceRaw] the order is that of the merged
    array: YES asks in their order, then NO bids in theirs (for the
    bids: YES bids, then NO asks). *)
Theorem deterministic_and_stable (book : Book.t) :
  (∀ h1 ref1 h2 ref2,
     Heap.holds h1 ref1 book → Heap.holds h2 ref2 book →
     ∃ r1 h1' r2 h2',
       Heap.get_orderbook ref1 h1 = Some (r1, h1')
       ∧ Heap.get_orderbook ref2 h2 = Some (r2, h2')
       ∧ h1' !! Heap.asks r1 = Some (Heap.UniArr (asks_of book))
       ∧ h2' !! Heap.asks r2 = Some (Heap.UniArr (asks_of book))
       ∧ h1' !! Heap.bids r1 = Some (Heap.UniArr (bids_of book))
       ∧ h2' !! Heap.bids r2 = Some (Heap.UniArr (bids_of book))
       ∧ Heap.spread r1 = Heap.spread r2
       ∧ Heap.totalOrders r1 = Heap.totalOrders r2)
  ∧ (∀ h ref,
     Heap.holds h ref book →
     ∃ r1 h1 r2 h2,
       Heap.get_orderbook ref h = Some (r1, h1)
       ∧ Heap.get_orderbook ref h1 = Some (r2, h2)
       ∧ h2 !! Heap.asks r2 = h1 !! Heap.asks r1
       ∧ h2 !! Heap.bids r2 = h1 !! Heap.bids r1
       ∧ Heap.spread r2 = Heap.spread r1
       ∧ Heap.totalOrders r2 = Heap.totalOrders r1)
  ∧ (∀ p,
     filter (λ u, UnifiedEntry.priceRaw u = p) (asks_of book)
     = filter (λ u, UnifiedEntry.priceRaw u = p)
         (map (λ e, toUnified e YES_ask None) (Book.asks (Book.yes book))
          ++ map (λ e, toUnified e NO_bid (Some (complement (RawEntry.price e))))
               (Book.bids (Book.no book))))
  ∧ (∀ p,
     filter (λ u, UnifiedEntry.priceRaw u = p) (bids_of book)
     = filter (λ u, UnifiedEntry.priceRaw u = p)
         (map (λ e, toUnified e YES_bid None) (Book.bids (Book.yes book))
          ++ map (λ e, toUnified e NO_ask (Some (complement (RawEntry.price e))))
               (Book.asks (Book.no book)))).
Proof.
  repeat split.
  - intros h1 ref1 h2 ref2 H1 H2.
    destruct (run_result book h1 ref1 H1)
      as (r1 & h1' & E1 & _ & A1 & B1 & S1 & T1 & _).
    destruct (run_result book h2 ref2 H2)
      as (r2 & h2' & E2 & _ & A2 & B2 & S2 & T2 & _).
    exists r1, h1', r2, h2'. repeat split; try done; congruence.
  - intros h ref H.
    destruct (run_result book h ref H)
      as (r1 & h1 & E1 & -> & A1 & B1 & S1 & T1 & _).
    assert (Heap.holds (h ++ Heap.built book) ref book) as H'.
    { destruct H as (? & ? & ? & ?). by repeat split; apply lookup_old. }
    destruct (run_result book _ ref H')
      as (r2 & h2 & E2 & _ & A2 & B2 & S2 & T2 & _).
    exists r1, (h ++ Heap.built book), r2, h2.
    repeat split; try done; congruence.
  - intros p. apply sort_filter. intros a b Ha Hb. unfold asc. lia.
  - intros p. apply sort_filter. intros a b Ha Hb. unfold desc. lia.
Qed.

Lemma deterministic_and_stable_witness :
  ∃ r1 h1 r2 h2,
    Heap.get_orderbook ref_of_store (store_of tied_book) = Some (r1, h1)
    ∧ Heap.get_orderbook ref_of_store h1 = Some (r2, h2)
    ∧ h2 !! Heap.asks r2 = h1 !! Heap.asks r1
    ∧ h2 !! Heap.bids r2 = h1 !! Heap.bids r1
    ∧ Heap.spread r2 = Heap.spread r1
    ∧ Heap.totalOrders r2 = Heap.totalOrders r1.
Proof.
  destruct (deterministic_and_stable tied_book) as (_ & H & _).
  apply (H (store_of tied_book) ref_of_store).
  apply holds_store_of.
Defined.

Example tied_book_asks :
  map (λ u, (UnifiedEntry.priceRaw u, UnifiedEntry.shares u, UnifiedEntry.source u))
    (asks_of tied_book)
  = [ (500000, "0.00", YES_ask); (600000, "0.00", YES_ask);
      (600000, "0.00", YES_ask); (600000, "0.00", NO_bid) ]
  ∧ map UnifiedEntry.total (asks_of tied_book)
    = [ "$0.00"; "$0.00"; "$0.00"; "$0.00" ].
Proof. split; vm_compute; reflexivity. Qed.

(** C7, as the code has it.  When both unified sides are non-empty the
    spread is the text, in cents with two decimals, of the [priceRaw]
    of the first ask, which is the lowest, minus the [priceRaw] of the
    first bid, which is the highest.  When a side is empty the spread
    is "N/A", which is the text of no number, so in particular not the
    text of a spread of zero.  The call does not throw. *)
Theorem spread_text_or_sentinel (book : Book.t) :
  (∀ a b la lb,
     asks_of book = a :: la → bids_of book = b :: lb →
     spread_of_book book
     = spread_text (UnifiedEntry.priceRaw a - UnifiedEntry.priceRaw b)
     ∧ Forall (λ u, UnifiedEntry.priceRaw a ≤ UnifiedEntry.priceRaw u) la
     ∧ Forall (λ u, UnifiedEntry.priceRaw u ≤ UnifiedEntry.priceRaw b) lb)
  ∧ (asks_of book = [] ∨ bids_of book = [] → spread_of_book book = "N/A")
  ∧ (∀ d, spread_text d ≠ "N/A")
  ∧ spread_text 0 = "0.00¢"
  ∧ (∀ h ref,
     Heap.holds h ref book →
     ∃ res h', Heap.get_orderbook ref h = Some (res, h')
               ∧ Heap.spread res = spread_of_book book).
Proof.
  split_and!.
  - intros a b la lb Ha Hb. split_and!.
    + by apply (spread_cons book a b la lb).
    + pose proof (asks_sorted book) as Hs. rewrite Ha in Hs.
      by apply StronglySorted_inv in Hs as [_ ?].
    + pose proof (bids_sorted book) as Hs. rewrite Hb in Hs.
      by apply StronglySorted_inv in Hs as [_ ?].
  - apply spread_nil.
  - apply spread_text_not_NA.
  - vm_compute. reflexivity.
  - intros h ref Hh.
    destruct (run_result book h ref Hh) as (res & h' & E & _ & _ & _ & S & _).
    by exists res, h'.
Qed.

Lemma spread_text_or_sentinel_witness :
  Result.spread (Result.unified (get_orderbook sample_book))
  = spread_text (600000 - 480000)
  ∧ Result.spread (Result.unified (get_orderbook empty_book)) = "N/A".
Proof.
  split.
  - apply (proj1 (spread_text_or_sentinel sample_book)
             (toUnified (entry 600000 1000000) YES_ask None)
             (toUnified (entry 480000 1000000) YES_bid None)
             [toUnified (entry 350000 2000000) NO_bid (Some 650000)] []);
      vm_compute; reflexivity.
  - apply (proj1 (proj2 (spread_text_or_sentinel empty_book))).
    left. reflexivity.
Defined.

(** C7, as the claim states it, fails: with both sides non-empty, a
    best ask 49 micro-units above the best bid and a best ask equal to
    the best bid give the same spread, "0.00¢"; the spread is not the
    difference, and the difference cannot be read back from it. *)
Lemma spread_is_not_the_difference :
  best (asks_of level_book) = Some 500000
  ∧ best (bids_of level_book) = Some 500000
  ∧ best (asks_of near_book) = Some 500049
  ∧ best (bids_of near_book) = Some 500000
  ∧ spread_of_book level_book = "0.00¢"
  ∧ spread_of_book near_book = "0.00¢"
  ∧ ¬ (∃ value : string → Z,
         ∀ book a b, best (asks_of book) = Some a → best (bids_of book) = Some b →
                     value (spread_of_book book) = a - b).
Proof.
  split_and!; [vm_compute; reflexivity..|].
  intros (value & Hv).
  assert (spread_of_book level_book = spread_of_book near_book) as Heq
    by (vm_compute; reflexivity).
  assert (value (spread_of_book level_book) = 500000 - 500000) as H1
    by (apply Hv; vm_compute; reflexivity).
  assert (value (spread_of_book near_book) = 500049 - 500000) as H2
    by (apply Hv; vm_compute; reflexivity).
  rewrite Heq, H2 in H1. lia.
Qed.

(** C8. The book with four empty sides gives empty asks, empty bids,
    the spread "N/A" and [totalOrders] 0.  A book with only YES asks
    gives no bids and the spread "N/A", and its asks are the YES asks,
    all of them and each once, in non-decreasing order of [priceRaw]:
    each with the price, the [escrowAppId] and the owner of its raw
    entry, the tag "YES ask" and, as [shares], the text of its
    quantity / 1,000,000 with two decimals.  In both cases the call
    does not throw. *)
Theorem empty_and_one_sided :
  get_orderbook empty_book
  = {| Result.unified :=
         {| Result.asks := []; Result.bids := []; Result.spread := "N/A" |};
       Result.totalOrders := 0 |}
  ∧ ∀ yesAsks,
      let book := book_of [] yesAsks [] [] in
      bids_of book = []
      ∧ spread_of_book book = "N/A"
      ∧ asks_of book = sort asc (map (λ e, toUnified e YES_ask None) yesAsks)
      ∧ asks_of book ≡ₚ map (λ e, toUnified e YES_ask None) yesAsks
      ∧ map (λ u, (UnifiedEntry.priceRaw u, UnifiedEntry.escrowAppId u,
                   UnifiedEntry.owner u, UnifiedEntry.source u,
                   UnifiedEntry.shares u))
          (asks_of book)
        ≡ₚ map (λ e, (RawEntry.price e, RawEntry.escrowAppId e,
                      RawEntry.owner e, "YES ask",
                      JS.toFixed 2 (JS.div (JS.of_Z (RawEntry.quantity e))
                                      (JS.of_Z 1000000))))
             yesAsks
      ∧ length (asks_of book) = length yesAsks
      ∧ StronglySorted
          (λ a b, UnifiedEntry.priceRaw a ≤ UnifiedEntry.priceRaw b)
          (asks_of book)
      ∧ Result.totalOrders (get_orderbook book) = length yesAsks
      ∧ ∀ h ref,
          Heap.holds h ref book →
          ∃ res h', Heap.get_orderbook ref h = Some (res, h')
                    ∧ h' !! Heap.asks res = Some (Heap.UniArr (asks_of book))
                    ∧ h' !! Heap.bids res = Some (Heap.UniArr [])
                    ∧ Heap.spread res = "N/A"
                    ∧ Heap.totalOrders res = length yesAsks.
Proof.
  split; [reflexivity|]. intros yesAsks book.
  assert (bids_of book = []) as Hb by reflexivity.
  assert (spread_of_book book = "N/A") as Hs by (apply spread_nil; by right).
  assert (asks_of book = sort asc (map (λ e, toUnified e YES_ask None) yesAsks))
    as Ha.
  { cbn [get_orderbook Result.asks Result.unified]. unfold asks_merged.
    cbn [book book_of Book.asks Book.bids Book.yes Book.no map].
    by rewrite app_nil_r. }
  assert (Result.totalOrders (get_orderbook book) = length yesAsks) as Ht.
  { cbn [get_orderbook Result.totalOrders book book_of
         Book.asks Book.bids Book.yes Book.no length]. lia. }
  split_and!; try done.
  - rewrite Ha. apply sort_perm.
  - rewrite Ha.
    etransitivity; [apply Permutation_map, sort_perm|].
    by rewrite map_map.
  - rewrite Ha, sort_length. apply length_map.
  - apply asks_sorted.
  - intros h ref Hh.
    destruct (run_result book h ref Hh)
      as (res & h' & E & _ & A & B & S & T & _).
    exists res, h'. rewrite Hb in B. rewrite Hs in S. rewrite Ht in T. done.
Qed.

Lemma empty_and_one_sided_witness :
  ∃ res h',
    Heap.get_orderbook ref_of_store
      (store_of (book_of [] [entry 3 1; entry 1 1; entry 2 1] [] []))
    = Some (res, h')
    ∧ h' !! Heap.asks res
      = Some (Heap.UniArr (asks_of (book_of [] [entry 3 1; entry 1 1; entry 2 1] [] [])))
    ∧ h' !! Heap.bids res = Some (Heap.UniArr [])
    ∧ Heap.spread res = "N/A"
    ∧ Heap.totalOrders res = 3%nat.
Proof.
  destruct (proj2 empty_and_one_sided [entry 3 1; entry 1 1; entry 2 1])
    as (_ & _ & _ & _ & _ & _ & _ & _ & H).
  apply (H (store_of (book_of [] [entry 3 1; entry 1 1; entry 2 1] [] []))
           ref_of_store).
  apply holds_store_of.
Defined.

(** The asks of a book with three YES asks, out of order. *)
Example one_sided_asks :
  map (λ u, (UnifiedEntry.priceRaw u, UnifiedEntry.escrowAppId u,
             UnifiedEntry.owner u, UnifiedEntry.source u,
             UnifiedEntry.price u, UnifiedEntry.shares u,
             UnifiedEntry.total u))
    (asks_of (book_of [] [entry 300000 1000000; entry 100000 2500000;
                          entry 200000 40000] [] []))
  = [ (100000, 7, "OWNER", "YES ask", "10.00¢", "2.50", "$0.25");
      (200000, 7, "OWNER", "YES ask", "20.00¢", "0.04", "$0.01");
      (300000, 7, "OWNER", "YES ask", "30.00¢", "1.00", "$0.30") ].
Proof. vm_compute. reflexivity. Qed.

(** C9. A call leaves every array that was in the store as it was, in
    particular the four sides of the book it was given; the two arrays
    that it sorts are arrays that it has built. *)
Theorem inputs_not_mutated (book : Book.t) (h : Heap.heap)
    (ref : Heap.book_ref) :
  Heap.holds h ref book →
  ∃ res h', Heap.get_orderbook ref h = Some (res, h')
    ∧ (∀ l a, h !! l = Some a → h' !! l = Some a)
    ∧ Heap.holds h' ref book
    ∧ (length h ≤ Heap.asks res)%nat
    ∧ (length h ≤ Heap.bids res)%nat
    ∧ h' !! Heap.asks res = Some (Heap.UniArr (asks_of book))
    ∧ h' !! Heap.bids res = Some (Heap.UniArr (bids_of book)).
Proof.
  intros Hh.
  destruct (run_result book h ref Hh)
    as (res & h' & E & -> & A & B & _ & _ & La & Lb).
  exists res, (h ++ Heap.built book). split_and!; try done.
  - intros l a. apply lookup_old.
  - destruct Hh as (? & ? & ? & ?). by repeat split; apply lookup_old.
Qed.

Lemma inputs_not_mutated_witness :
  ∃ res h',
    Heap.get_orderbook ref_of_store (store_of sample_book) = Some (res, h')
    ∧ (∀ l a, store_of sample_book !! l = Some a → h' !! l = Some a)
    ∧ Heap.holds h' ref_of_store sample_book
    ∧ (length (store_of sample_book) ≤ Heap.asks res)%nat
    ∧ (length (store_of sample_book) ≤ Heap.bids res)%nat
    ∧ h' !! Heap.asks res = Some (Heap.UniArr (asks_of sample_book))
    ∧ h' !! Heap.bids res = Some (Heap.UniArr (bids_of sample_book)).
Proof.
  apply (inputs_not_mutated sample_book (store_of sample_book) ref_of_store).
  apply holds_store_of.
Defined.

(** C10, as the code has it.  When the best bid is above the best ask
    the call does not throw and the spread is the text of the negative
    difference best ask - best bid, in cents with two decimals.  The
    text keeps the minus sign, so it is neither the text of a zero
    spread nor "N/A": nothing is clamped. *)
Theorem crossed_book_spread (book : Book.t) (a b : UnifiedEntry.t)
    (la lb : list UnifiedEntry.t) :
  asks_of book = a :: la → bids_of book = b :: lb →
  UnifiedEntry.priceRaw a < UnifiedEntry.priceRaw b →
  spread_of_book book
  = spread_text (UnifiedEntry.priceRaw a - UnifiedEntry.priceRaw b)
  ∧ (∃ s, spread_of_book book = String "-" s)
  ∧ spread_of_book book ≠ spread_text 0
  ∧ spread_of_book book ≠ "N/A"
  ∧ ∀ h ref,
      Heap.holds h ref book →
      ∃ res h', Heap.get_orderbook ref h = Some (res, h')
                ∧ Heap.spread res = spread_of_book book.
Proof.
  intros Ha Hb Hlt.
  pose proof (spread_cons book a b la lb Ha Hb) as Hs.
  destruct (spread_text_neg (UnifiedEntry.priceRaw a - UnifiedEntry.priceRaw b))
    as [s Hm]; [lia|].
  split_and!.
  - exact Hs.
  - exists s. by rewrite Hs.
  - rewrite Hs, Hm. discriminate.
  - rewrite Hs. apply spread_text_not_NA.
  - intros h ref Hh.
    destruct (run_result book h ref Hh) as (res & h' & E & _ & _ & _ & S & _).
    by exists res, h'.
Qed.

Lemma crossed_book_spread_witness :
  Result.spread (Result.unified (get_orderbook crossed_book))
  = spread_text (500000 - 500020)
  ∧ (∃ s, Result.spread (Result.unified (get_orderbook crossed_book))
          = String "-" s).
Proof.
  destruct (crossed_book_spread crossed_book
              (toUnified (entry 500000 1000000) YES_ask None)
              (toUnified (entry 500020 1000000) YES_bid None) [] [])
    as (H1 & H2 & _); [vm_compute; reflexivity..| |].
  - simpl. lia.
  - split; [exact H1|exact H2].
Defined.

(** C10, as the claim states it, fails: two crossed books, with the
    best bid 20 and 30 micro-units above the best ask, report the same
    spread, "-0.00¢"; what is reported is not the difference. *)
Lemma crossed_spread_is_rounded :
  best (asks_of crossed_book) = Some 500000
  ∧ best (bids_of crossed_book) = Some 500020
  ∧ best (asks_of crossed_book') = Some 500000
  ∧ best (bids_of crossed_book') = Some 500030
  ∧ spread_of_book crossed_book = "-0.00¢"
  ∧ spread_of_book crossed_book' = "-0.00¢"
  ∧ ¬ (∃ value : string → Z,
         ∀ book a b, best (asks_of book) = Some a → best (bids_of book) = Some b →
                     a < b → value (spread_of_book book) = a - b).
Proof.
  split_and!; [vm_compute; reflexivity..|].
  intros (value & Hv).
  assert (spread_of_book crossed_book = spread_of_book crossed_book') as Heq
    by (vm_compute; reflexivity).
  assert (value (spread_of_book crossed_book) = 500000 - 500020) as H1
    by (apply Hv; [vm_compute; reflexivity..|lia]).
  assert (value (spread_of_book crossed_book') = 500000 - 500030) as H2
    by (apply Hv; [vm_compute; reflexivity..|lia]).
  rewrite Heq, H2 in H1. lia.
Qed.

(** ** The book seen from the NO token *)

Lemma sorted_map_priceRaw (l : list UnifiedEntry.t) :
  StronglySorted (λ a b, UnifiedEntry.priceRaw a ≤ UnifiedEntry.priceRaw b) l →
  StronglySorted Z.le (map UnifiedEntry.priceRaw l).
Proof.
  induction 1 as [|u l Hl IH Hu]; simpl; constructor; [done|].
  by apply Forall_map.
Qed.

Lemma sorted_map_complement (l : list UnifiedEntry.t) :
  StronglySorted (λ a b, UnifiedEntry.priceRaw b ≤ UnifiedEntry.priceRaw a) l →
  StronglySorted Z.le (map (λ u, 1000000 - UnifiedEntry.priceRaw u) l).
Proof.
  induction 1 as [|u l Hl IH Hu]; simpl; constructor; [done|].
  apply Forall_map. eapply Forall_impl; [exact Hu|]. simpl. intros; lia.
Qed.

Lemma mirror_asks (book : Book.t) :
  (∀ e, e ∈ Book.bids (Book.yes book) ∨ e ∈ Book.asks (Book.no book) →
        safe_price (RawEntry.price e)) →
  map UnifiedEntry.priceRaw (asks_of (mirror book))
  = map (λ u, 1000000 - UnifiedEntry.priceRaw u) (bids_of book).
Proof.
  intros Hsafe.
  apply (StronglySorted_unique Z.le).
  - apply sorted_map_priceRaw, asks_sorted.
  - apply sorted_map_complement, bids_sorted.
  - etransitivity; [apply Permutation_map, asks_perm|].
    etransitivity; [|symmetry; apply Permutation_map, bids_perm].
    unfold asks_merged, bids_merged, mirror.
    cbn [Book.yes Book.no Book.asks Book.bids].
    rewrite !map_app, !map_map. etransitivity; [apply Permutation_app_comm|].
    match goal with |- ?l ≡ₚ ?r => assert (l = r) as ->; [|done] end.
    f_equal; apply map_ext_in; intros e He;
      cbn [toUnified UnifiedEntry.priceRaw default]; unfold id.
    + apply complement_exact, Hsafe. left. by apply list_elem_of_In.
    + rewrite complement_exact; [lia|].
      apply Hsafe. right. by apply list_elem_of_In.
Qed.

Lemma mirror_mirror (book : Book.t) : mirror (mirror book) = book.
Proof. by destruct book. Qed.

Lemma best_map (l : list UnifiedEntry.t) :
  best l = head (map UnifiedEntry.priceRaw l).
Proof. by destruct l. Qed.

(** X1. Seen from the NO token, a book whose prices are safe integers
    has the mirrored prices: its asks are its bids at 1,000,000 minus
    their price, best first, its bids are its asks likewise, and its
    spread is the same. *)
Theorem mirror_book (book : Book.t) :
  safe_book book →
  map UnifiedEntry.priceRaw (asks_of (mirror book))
  = map (λ u, 1000000 - UnifiedEntry.priceRaw u) (bids_of book)
  ∧ map UnifiedEntry.priceRaw (bids_of (mirror book))
    = map (λ u, 1000000 - UnifiedEntry.priceRaw u) (asks_of book)
  ∧ spread_of_book (mirror book) = spread_of_book book.
Proof.
  intros Hsafe.
  assert (map UnifiedEntry.priceRaw (asks_of (mirror book))
          = map (λ u, 1000000 - UnifiedEntry.priceRaw u) (bids_of book)) as Ha.
  { apply mirror_asks. intros e He. apply Hsafe. tauto. }
  assert (map UnifiedEntry.priceRaw (bids_of (mirror book))
          = map (λ u, 1000000 - UnifiedEntry.priceRaw u) (asks_of book)) as Hb.
  { pose proof (mirror_asks (mirror book)) as H.
    rewrite mirror_mirror in H.
    rewrite <- (map_map UnifiedEntry.priceRaw (λ p, 1000000 - p)), H.
    - rewrite !map_map. rewrite <- (map_id (map _ _)) at 1. rewrite map_map.
      apply map_ext. intros u. lia.
    - intros e He. apply Hsafe. cbn [mirror Book.yes Book.no] in He. tauto. }
  split_and!; [done..|].
  change (spread_of (best (asks_of (mirror book))) (best (bids_of (mirror book)))
          = spread_of (best (asks_of book)) (best (bids_of book))).
  rewrite !best_map, Ha, Hb.
  destruct (asks_of book) as [|a la], (bids_of book) as [|b lb]; try done.
  cbn [map head spread_of]. f_equal. lia.
Qed.

(** ** Where a text has a minus sign *)

Lemma plain_nil : plain "".
Proof. constructor. Qed.

Lemma plain_cons (c : ascii) (s : string) :
  c ≠ "-"%char → plain s → plain (String c s).
Proof. intros. by constructor. Qed.

Lemma plain_app (s t : string) : plain s → plain t → plain (s +:+ t).
Proof.
  intros Hs Ht. induction s as [|c s IH]; [done|].
  inversion_clear Hs. apply plain_cons; auto.
Qed.

Lemma plain_take (k : nat) (s : string) : plain s → plain (JS.take_str k s).
Proof.
  revert s. induction k as [|k IH]; intros [|c s] Hs; try apply plain_nil.
  inversion_clear Hs. apply plain_cons; auto.
Qed.

Lemma plain_drop (k : nat) (s : string) : plain s → plain (JS.drop_str k s).
Proof.
  revert s. induction k as [|k IH]; intros [|c s] Hs; try done.
  inversion_clear Hs. simpl. auto.
Qed.

Lemma plain_zeros (k : nat) : plain (JS.zeros k).
Proof. induction k; [apply plain_nil|]. by apply plain_cons. Qed.

Lemma plain_digits (n : Z) : plain (JS.digits n).
Proof.
  unfold JS.digits. generalize (N.to_uint (Z.to_N n)). intros d.
  assert (plain (NilEmpty.string_of_uint d)) as H.
  { induction d; simpl; try apply plain_nil; by apply plain_cons. }
  destruct d; try exact H. by apply plain_cons; [|apply plain_nil].
Qed.

Lemma plain_strip_zeros (s : string) : plain s → plain (JS.strip_zeros s).
Proof.
  unfold plain, JS.strip_zeros. rewrite list_ascii_of_string_of_list_ascii.
  intros H. apply Forall_rev. apply Forall_rev in H.
  induction H as [|c l Hc Hl IH]; simpl; [constructor|].
  destruct (Ascii.eqb c "0"); [done|by constructor].
Qed.

Lemma plain_fixed_digits (f : nat) (n : Z) : plain (JS.fixed_digits f n).
Proof.
  unfold JS.fixed_digits.
  set (m := if (_ <=? f)%nat then _ else _).
  assert (plain m) as Hm.
  { subst m. destruct (_ <=? f)%nat; [|apply plain_digits].
    apply plain_app; [apply plain_zeros|apply plain_digits]. }
  destruct f; [done|].
  apply plain_app; [by apply plain_take|].
  apply plain_app; [by apply plain_cons; [|apply plain_nil]|by apply plain_drop].
Qed.

Lemma plain_toString_large (x : Z) : plain (JS.toString_large x).
Proof.
  unfold JS.toString_large.
  set (s := JS.strip_zeros _).
  assert (plain s) by apply plain_strip_zeros, plain_digits.
  apply plain_app; [by apply plain_take|].
  apply plain_app.
  { destruct (_ <=? 1)%nat; [apply plain_nil|].
    apply plain_app; [by apply plain_cons; [|apply plain_nil]|by apply plain_drop]. }
  apply plain_app; [|apply plain_digits].
  apply plain_cons; [done|]. by apply plain_cons; [|apply plain_nil].
Qed.

Lemma plain_toFixed (f : nat) (x : JS.num) :
  unsigned x → plain (JS.toFixed f x).
Proof.
  destruct x as [s|s| |s m e]; simpl; intros Hs; subst;
    try (repeat (apply plain_cons; [done|]); apply plain_nil).
  - apply plain_fixed_digits.
  - destruct (JS.ge_1e21 m e);
      [apply plain_toString_large|apply plain_fixed_digits].
Qed.

Lemma unsigned_binary_round_aux (m e : Z) (l : location) :
  unsigned (binary_round_aux JS.prec JS.emax false m e l).
Proof.
  unfold binary_round_aux.
  destruct (shr_fexp _ _ m e l) as [mrs' e'].
  destruct (shr_fexp _ _ _ e' loc_Exact) as [mrs'' e''].
  destruct (shr_m mrs''); simpl; try done.
  by destruct (_ <=? _).
Qed.

Lemma unsigned_of_Z (d : Z) : 0 ≤ d → unsigned (JS.of_Z d).
Proof.
  intros Hd. destruct d as [|p|p]; [done| |lia].
  unfold JS.of_Z, binary_normalize, binary_round.
  destruct (shl_align _ _ _) as [mz ez]. apply unsigned_binary_round_aux.
Qed.

Lemma unsigned_div (x y : JS.num) :
  unsigned x → unsigned y → unsigned (JS.div x y).
Proof.
  intros Hx Hy.
  destruct x as [sx|sx| |sx mx ex], y as [sy|sy| |sy my ey];
    simpl in Hx, Hy; subst; try done.
  unfold JS.div, SFdiv.
  destruct (SFdiv_core_binary _ _ _ _ _ _) as [[mz ez] lz].
  apply unsigned_binary_round_aux.
Qed.

Lemma plain_first (s t : string) : plain s → s ≠ String "-" t.
Proof. intros Hs ->. by inversion_clear Hs. Qed.

(** The text of a spread that is not negative has no minus sign. *)
Lemma spread_text_plain (d : Z) : 0 ≤ d → plain (spread_text d).
Proof.
  intros Hd. unfold spread_text. apply plain_app.
  - apply plain_toFixed, unsigned_div; [by apply unsigned_of_Z|done].
  - repeat (apply plain_cons; [done|]). apply plain_nil.
Qed.

(** ** The value of a quotient of integers *)

(** The last step of a rounding: a mantissa between 2^52 and 2^53 is
    kept, and 2^53 itself becomes 2^52 with the next exponent. *)
Lemma round_last_step (s : bool) (r : Z) (e : Z) :
  2 ^ 52 ≤ r ≤ 2 ^ 53 → -1074 ≤ e ≤ 970 →
  ∃ mf ef,
    (let '(mrs, e') := shr_fexp JS.prec JS.emax r e loc_Exact in
     match shr_m mrs with
     | 0 => S754_zero s
     | Zpos m => if e' <=? JS.emax - JS.prec
                 then S754_finite s m e' else S754_infinity s
     | Zneg _ => S754_nan
     end) = S754_finite s mf ef
    ∧ 2 ^ 52 ≤ Zpos mf < 2 ^ 53
    ∧ ((ef = e ∧ Zpos mf = r) ∨ (ef = e + 1 ∧ 2 * Zpos mf = r)).
Proof.
  intros Hr He. destruct r as [|p|p]; try lia.
  destruct (Z.lt_ge_cases (Zpos p) (2 ^ 53)) as [Hlt|Hge].
  - rewrite shr_fexp_53 by lia. cbn [shr_record_of_loc shr_m].
    unfold JS.emax, JS.prec.
    destruct (Z.leb_spec e (1024 - 53)); [|lia].
    exists p, e. split_and!; first [done|lia|by left].
  - assert (Zpos p = 2 ^ 53) as Hp by lia.
    rewrite shr_fexp_54 by lia.
    pose proof (shr_1_m (shr_record_of_loc (Zpos p) loc_Exact)) as H1.
    rewrite shr_record_of_loc_m in H1. specialize (H1 ltac:(lia)).
    assert (Zpos p / 2 = 2 ^ 52) as Hh by (rewrite Hp; reflexivity).
    rewrite Hh in H1.
    destruct (shr_m (shr_1 (shr_record_of_loc (Zpos p) loc_Exact)))
      as [|m|m] eqn:Em; try lia.
    unfold JS.emax, JS.prec.
    destruct (Z.leb_spec (e + 1) (1024 - 53)); [|lia].
    exists m, (e + 1). split_and!; first [done|lia|right; lia].
Qed.

(** Rounding a mantissa of 53 or 54 bits: the result is one of the two
    numbers of the format that enclose the number rounded. *)
Lemma binary_round_aux_near (s : bool) (q : positive) (e : Z) (l : location) :
  2 ^ 52 ≤ Zpos q < 2 ^ 54 → -1074 ≤ e ≤ 969 →
  ∃ mf ef E k,
    binary_round_aux JS.prec JS.emax s (Zpos q) e l = S754_finite s mf ef
    ∧ 2 ^ 52 ≤ Zpos mf < 2 ^ 53
    ∧ (E = e ∨ E = e + 1)
    ∧ Zpos q / 2 ^ (E - e) ≤ k ≤ Zpos q / 2 ^ (E - e) + 1
    ∧ ((ef = E ∧ Zpos mf = k) ∨ (ef = E + 1 ∧ 2 * Zpos mf = k)).
Proof.
  intros Hq He. unfold binary_round_aux.
  destruct (Z.lt_ge_cases (Zpos q) (2 ^ 53)) as [Hlt|Hge].
  - rewrite shr_fexp_53 by lia.
    rewrite shr_record_of_loc_m, loc_of_shr_record_of_loc.
    pose proof (round_nearest_even_ge (Zpos q) l).
    pose proof (round_nearest_even_le (Zpos q) l).
    destruct (round_last_step s (round_nearest_even (Zpos q) l) e)
      as (mf & ef & -> & Hmf & Hk); [lia|lia|].
    exists mf, ef, e, (round_nearest_even (Zpos q) l).
    replace (e - e) with 0 by lia. rewrite Z.pow_0_r, Z.div_1_r.
    split_and!; first [done|lia|by left].
  - rewrite shr_fexp_54 by lia.
    pose proof (shr_1_m (shr_record_of_loc (Zpos q) l)) as H1.
    rewrite shr_record_of_loc_m in H1. specialize (H1 ltac:(lia)).
    set (mrs := shr_1 (shr_record_of_loc (Zpos q) l)) in *.
    assert (2 ^ 52 ≤ Zpos q / 2 < 2 ^ 53) as Hh.
    { split; [apply Z.div_le_lower_bound; lia|apply Z.div_lt_upper_bound; lia]. }
    pose proof (round_nearest_even_ge (shr_m mrs) (loc_of_shr_record mrs)).
    pose proof (round_nearest_even_le (shr_m mrs) (loc_of_shr_record mrs)).
    destruct (round_last_step s
                (round_nearest_even (shr_m mrs) (loc_of_shr_record mrs)) (e + 1))
      as (mf & ef & -> & Hmf & Hk); [lia|lia|].
    exists mf, ef, (e + 1),
      (round_nearest_even (shr_m mrs) (loc_of_shr_record mrs)).
    replace (e + 1 - e) with 1 by lia. rewrite Z.pow_1_r, <- H1.
    split_and!; first [done|lia|by right].
Qed.

(** The quotient of two integers below 2^53, as binary64 computes it:
    in units of [2^E], the exact quotient lies between [F] and [F + 1]
    and the computed one is [F] or [F + 1]. *)
Lemma quotient_near (s : bool) (a b : positive) :
  Zpos a < 2 ^ 53 → Zpos b < 2 ^ 53 →
  ∃ mf ef E k F,
    JS.div (binary_round JS.prec JS.emax s a 0)
           (binary_round JS.prec JS.emax false b 0)
    = S754_finite s mf ef
    ∧ 2 ^ 52 ≤ Zpos mf < 2 ^ 53
    ∧ E ≤ Zpos (digits2_pos a) - Zpos (digits2_pos b) - 52
    ∧ E ≤ 0
    ∧ ((ef = E ∧ Zpos mf = k) ∨ (ef = E + 1 ∧ 2 * Zpos mf = k))
    ∧ F ≤ k ≤ F + 1
    ∧ F * Zpos b ≤ Zpos a * 2 ^ (- E) < (F + 1) * Zpos b.
Proof.
  intros Ha Hb.
  destruct (of_Z_norm s a Ha) as (m1 & e1 & -> & Hm1 & He1 & He1' & Hv1).
  destruct (of_Z_norm false b Hb) as (m2 & e2 & -> & Hm2 & He2 & He2' & Hv2).
  unfold JS.div, SFdiv, SFdiv_core_binary. rewrite fexp_eq. cbn [Zdigits2].
  rewrite (digits2_pos_of_bounds m1 53), (digits2_pos_of_bounds m2 53) by lia.
  replace (Z.min (Z.max (53 + e1 - (53 + e2) - 53) (-1074)) (e1 - e2))
    with (e1 - e2 - 53) by lia.
  replace (e1 - e2 - (e1 - e2 - 53)) with 53 by lia.
  rewrite Z.shiftl_mul_pow2 by lia.
  pose proof (Z.div_mod (Zpos m1 * 2 ^ 53) (Zpos m2)) as Hdm.
  pose proof (Z.mod_pos_bound (Zpos m1 * 2 ^ 53) (Zpos m2)) as Hmod.
  unfold Z.div, Z.modulo in Hdm, Hmod.
  destruct (Z.div_eucl (Zpos m1 * 2 ^ 53) (Zpos m2)) as [q r].
  specialize (Hdm ltac:(lia)). specialize (Hmod ltac:(lia)).
  assert (2 ^ 52 ≤ q < 2 ^ 54) as Hq by nia.
  destruct q as [|q|q]; try lia.
  rewrite xorb_false_r.
  destruct (binary_round_aux_near s q (e1 - e2 - 53)
              (new_location (Zpos m2) r))
    as (mf & ef & E & k & -> & Hmf & HE & Hk & Hef); [done|lia|].
  set (j := E - (e1 - e2 - 53)) in *.
  assert (j = 0 ∨ j = 1) as Hj by lia.
  assert (0 < 2 ^ j) by (apply Z.pow_pos_nonneg; lia).
  (* the enclosure, first in terms of the mantissas *)
  pose proof (Z.div_mod (Zpos q) (2 ^ j)) as Hdj.
  pose proof (Z.mod_pos_bound (Zpos q) (2 ^ j)) as Hmj.
  specialize (Hdj ltac:(lia)). specialize (Hmj ltac:(lia)).
  set (F := Zpos q / 2 ^ j) in *. set (rj := Zpos q mod 2 ^ j) in *.
  assert (F * (Zpos m2 * 2 ^ j) ≤ Zpos m1 * 2 ^ 53 < (F + 1) * (Zpos m2 * 2 ^ j))
    as Henc by nia.
  (* the common factor 2^(j - e2) *)
  assert (0 < 2 ^ (j - e2)) as Hc by (apply Z.pow_pos_nonneg; lia).
  assert (Zpos m2 * 2 ^ j = Zpos b * 2 ^ (j - e2)) as E2.
  { rewrite Hv2, <- Z.mul_assoc, <- Z.pow_add_r by lia.
    f_equal. f_equal. lia. }
  assert (Zpos m1 * 2 ^ 53 = Zpos a * 2 ^ (- E) * 2 ^ (j - e2)) as E1.
  { rewrite Hv1, <- !Z.mul_assoc, <- !Z.pow_add_r by lia.
    f_equal. f_equal. lia. }
  rewrite E1, E2 in Henc. rewrite !Z.mul_assoc in Henc.
  destruct Henc as [Hl Hu].
  apply Z.mul_le_mono_pos_r in Hl; [|done].
  apply Z.mul_lt_mono_pos_r in Hu; [|done].
  exists mf, ef, E, k, F. split_and!; try done; lia.
Qed.

(** ** The texts of quotients *)

(** The integer nearest to [100 * k / T], when [k / T] is within one
    unit of the last place of [a / (200 h)] and [a] is not half way
    between two multiples of [2 h], is [a / (2 h)] rounded. *)
Lemma nearest_is_rounded (a h k F T : Z) :
  0 < h → 0 ≤ a → 200 * h < T →
  F ≤ k ≤ F + 1 →
  F * (200 * h) ≤ a * T < (F + 1) * (200 * h) →
  a mod (2 * h) ≠ h →
  (200 * k + T) / (2 * T) = (a + h) / (2 * h).
Proof.
  intros Hh Ha HT Hk [Hlo Hhi] Htie.
  set (R := (a + h) / (2 * h)).
  pose proof (Z.div_mod (a + h) (2 * h) ltac:(lia)) as Hdm.
  pose proof (Z.mod_pos_bound (a + h) (2 * h) ltac:(lia)) as Hmb.
  fold R in Hdm.
  assert ((a + h) mod (2 * h) ≠ 0) as Hne.
  { intros H0. apply Htie.
    replace a with (a + h - h) at 1 by lia.
    rewrite Zminus_mod, H0, (Z.mod_small h) by lia.
    replace (0 - h) with (h + (-1) * (2 * h)) by lia.
    rewrite Z.mod_add by lia. apply Z.mod_small. lia. }
  set (m := (a + h) mod (2 * h)) in *.
  assert (a = 2 * h * R + m - h) as Ea by lia.
  symmetry. apply (Z.div_unique _ _ _ (200 * k + T - 2 * T * R)); [|lia].
  left.
  (* the products that occur, as atoms *)
  assert (a * T = 2 * (h * (R * T)) + (m - h) * T) as EaT by (rewrite Ea; ring).
  assert (1 * T ≤ m * T) as Hm1 by (apply Z.mul_le_mono_nonneg_r; lia).
  assert (m * T ≤ (2 * h - 1) * T) as Hm2 by (apply Z.mul_le_mono_nonneg_r; lia).
  assert (F * (200 * h) ≤ k * (200 * h)) as Hk1 by (apply Z.mul_le_mono_nonneg_r; lia).
  assert (k * (200 * h) ≤ (F + 1) * (200 * h)) as Hk2 by (apply Z.mul_le_mono_nonneg_r; lia).
  assert (0 < h * (200 * k + T - 2 * T * R) < h * (2 * T)) as Hfin.
  { replace (h * (200 * k + T - 2 * T * R))
      with (k * (200 * h) + h * T - 2 * (h * (R * T))) by ring.
    replace ((m - h) * T) with (m * T - h * T) in EaT by ring.
    replace ((2 * h - 1) * T) with (2 * (h * T) - T) in Hm2 by ring.
    replace ((F + 1) * (200 * h)) with (F * (200 * h) + 200 * h) in * by ring.
    replace (h * (2 * T)) with (2 * (h * T)) by ring.
    lia. }
  destruct Hfin as [H1 H2].
  split.
  - apply Z.lt_le_incl. apply (Z.mul_lt_mono_pos_l h); lia.
  - apply (Z.mul_lt_mono_pos_l h); lia.
Qed.

(** The text with two decimals of the quotient of an integer below 2^52
    by [200 h]: the quotient by [2 h] rounded to the nearest integer,
    when the integer is not half way between two multiples of [2 h]. *)
Lemma toFixed_quotient (s : bool) (a b : positive) (h : Z) :
  Zpos a < 2 ^ 52 → Zpos b = 200 * h → Zpos b < 2 ^ 53 →
  Zpos a mod (2 * h) ≠ h →
  JS.toFixed 2 (JS.div (binary_round JS.prec JS.emax s a 0)
                       (binary_round JS.prec JS.emax false b 0))
  = (if s then "-" else "") +:+ JS.fixed_digits 2 ((Zpos a + h) / (2 * h)).
Proof.
  intros Ha Hb Hb53 Htie.
  destruct (quotient_near s a b) as (mf & ef & E & k & F & -> & Hmf & HE & _ & Hef & Hk & Henc);
    [lia|done|].
  pose proof (digits2_pos_bounds a) as [Alo Ahi].
  pose proof (digits2_pos_bounds b) as [Blo Bhi].
  pose proof (Pos2Z.is_pos (digits2_pos a)) as Hda.
  pose proof (Pos2Z.is_pos (digits2_pos b)) as Hdb.
  set (da := Zpos (digits2_pos a)) in *. set (db := Zpos (digits2_pos b)) in *.
  assert (da ≤ 52).
  { destruct (Z.le_gt_cases da 52); [done|].
    assert (2 ^ 52 ≤ 2 ^ (da - 1)) by (apply Z.pow_le_mono_r; lia). lia. }
  assert (8 ≤ db).
  { destruct (Z.le_gt_cases 8 db); [done|].
    assert (2 ^ db ≤ 2 ^ 7) by (apply Z.pow_le_mono_r; lia).
    change (2 ^ 7) with 128 in *. lia. }
  assert (2 ^ db ≤ 2 ^ (- E)) by (apply Z.pow_le_mono_r; lia).
  set (T := 2 ^ (- E)) in *.
  assert (1 ≤ 2 ^ (- ef)) by (apply (Z.pow_le_mono_r 2 0); lia).
  unfold JS.toFixed. f_equal.
  assert (JS.ge_1e21 mf ef = false) as ->.
  { unfold JS.ge_1e21. destruct (Z.leb_spec 0 ef); [lia|].
    apply Z.leb_gt. change (10 ^ 21) with 1000000000000000000000.
    change (2 ^ 53) with 9007199254740992 in Hmf. nia. }
  f_equal. unfold JS.nearest_scaled.
  destruct (Z.leb_spec 0 ef); [lia|].
  change (10 ^ Z.of_nat 2) with 100.
  rewrite <- (nearest_is_rounded (Zpos a) h k F T); try done; try lia.
  destruct Hef as [[-> <-]|[-> <-]].
  - replace (- E + 1) with (1 + - E) by lia.
    rewrite Z.pow_add_r by lia. fold T. f_equal; ring.
  - replace (- (E + 1) + 1) with (- E) by lia. fold T.
    assert (T = 2 * 2 ^ (- (E + 1))) as ET.
    { unfold T. rewrite <- (Z.pow_1_r 2) at 2. rewrite <- Z.pow_add_r by lia.
      f_equal. lia. }
    set (T' := 2 ^ (- (E + 1))) in *.
    replace (200 * (2 * Zpos mf) + T) with (2 * (2 * (Zpos mf * 100) + T')) by lia.
    replace (2 * T) with (2 * T) by done. rewrite ET at 2.
    rewrite <- ET. rewrite Z.div_mul_cancel_l by lia. done.
Qed.

(** ** Prices within range *)

Lemma safe_book_intro (book : Book.t) :
  Forall (λ e, safe_price (RawEntry.price e))
    (Book.bids (Book.yes book) ++ Book.asks (Book.yes book)
     ++ Book.bids (Book.no book) ++ Book.asks (Book.no book)) →
  safe_book book.
Proof.
  intros H e He. rewrite Forall_forall in H. apply H.
  rewrite !elem_of_app. tauto.
Qed.

Lemma mirror_book_witness :
  map UnifiedEntry.priceRaw (asks_of (mirror sample_book))
  = map (λ u, 1000000 - UnifiedEntry.priceRaw u) (bids_of sample_book)
  ∧ map UnifiedEntry.priceRaw (bids_of (mirror sample_book))
    = map (λ u, 1000000 - UnifiedEntry.priceRaw u) (asks_of sample_book)
  ∧ spread_of_book (mirror sample_book) = spread_of_book sample_book.
Proof.
  apply (mirror_book sample_book). apply safe_book_intro.
  repeat constructor; unfold safe_price; simpl; lia.
Defined.

Lemma best_elem (l : list UnifiedEntry.t) (p : Z) :
  best l = Some p → ∃ u, u ∈ l ∧ UnifiedEntry.priceRaw u = p.
Proof.
  destruct l as [|u l]; [done|]. intros [= <-]. exists u. split; [left|done].
Qed.

(** X2. When every raw price is between 0 and 1,000,000, so is the
    [priceRaw] of every unified entry, and the best ask and the best bid
    are at most 1,000,000 apart. *)
Theorem prices_stay_in_range (book : Book.t) :
  (∀ e, e ∈ Book.bids (Book.yes book) ∨ e ∈ Book.asks (Book.yes book)
        ∨ e ∈ Book.bids (Book.no book) ∨ e ∈ Book.asks (Book.no book) →
        0 ≤ RawEntry.price e ≤ 1000000) →
  (∀ u, u ∈ asks_of book ∨ u ∈ bids_of book →
        0 ≤ UnifiedEntry.priceRaw u ≤ 1000000)
  ∧ (∀ a b, best (asks_of book) = Some a → best (bids_of book) = Some b →
            -1000000 ≤ a - b ≤ 1000000).
Proof.
  intros Hr.
  assert (∀ u, u ∈ asks_of book ∨ u ∈ bids_of book →
               0 ≤ UnifiedEntry.priceRaw u ≤ 1000000) as Hu.
  { intros u [Hu|Hu].
    - apply elem_of_asks in Hu as [(e & He & ->)|(e & He & ->)];
        cbn [toUnified UnifiedEntry.priceRaw default]; unfold id.
      + apply Hr. tauto.
      + pose proof (Hr e ltac:(tauto)).
        rewrite complement_exact by lia. lia.
    - apply elem_of_bids in Hu as [(e & He & ->)|(e & He & ->)];
        cbn [toUnified UnifiedEntry.priceRaw default]; unfold id.
      + apply Hr. tauto.
      + pose proof (Hr e ltac:(tauto)).
        rewrite complement_exact by lia. lia. }
  split; [exact Hu|].
  intros a b Ha Hb.
  apply best_elem in Ha as (ua & Hua & <-).
  apply best_elem in Hb as (ub & Hub & <-).
  pose proof (Hu ua ltac:(tauto)). pose proof (Hu ub ltac:(tauto)). lia.
Qed.

Lemma prices_stay_in_range_witness :
  (∀ u, u ∈ asks_of sample_book ∨ u ∈ bids_of sample_book →
        0 ≤ UnifiedEntry.priceRaw u ≤ 1000000)
  ∧ (∀ a b, best (asks_of sample_book) = Some a →
            best (bids_of sample_book) = Some b →
            -1000000 ≤ a - b ≤ 1000000).
Proof.
  apply (prices_stay_in_range sample_book).
  intros e He. cbn in He. rewrite !elem_of_cons, !elem_of_nil in He.
  destruct He as [[->|[]]|[[->|[]]|[[->|[]]|[]]]]; simpl; lia.
Defined.

(** ** The sign of the spread *)

(** X3. With both sides non-empty, the spread starts with a minus sign
    exactly when the best bid is above the best ask; otherwise it has no
    minus sign at all. *)
Theorem spread_minus_iff_crossed (book : Book.t) (a b : UnifiedEntry.t)
    (la lb : list UnifiedEntry.t) :
  asks_of book = a :: la → bids_of book = b :: lb →
  ((∃ s, spread_of_book book = String "-" s)
   ↔ UnifiedEntry.priceRaw a < UnifiedEntry.priceRaw b)
  ∧ (UnifiedEntry.priceRaw b ≤ UnifiedEntry.priceRaw a →
     plain (spread_of_book book)).
Proof.
  intros Ha Hb. rewrite (spread_cons book a b la lb Ha Hb).
  assert (UnifiedEntry.priceRaw b ≤ UnifiedEntry.priceRaw a →
          plain (spread_text (UnifiedEntry.priceRaw a - UnifiedEntry.priceRaw b)))
    as Hp by (intros; apply spread_text_plain; lia).
  split; [|exact Hp]. split.
  - intros [s Hs].
    destruct (Z.lt_ge_cases (UnifiedEntry.priceRaw a) (UnifiedEntry.priceRaw b))
      as [|Hge]; [done|].
    by apply (plain_first _ s) in Hp.
  - intros Hlt. apply spread_text_neg. lia.
Qed.

Lemma spread_minus_iff_crossed_witness :
  ((∃ s, spread_of_book crossed_book = String "-" s) ↔ 500000 < 500020)
  ∧ (500020 ≤ 500000 → plain (spread_of_book crossed_book)).
Proof.
  apply (spread_minus_iff_crossed crossed_book
           (toUnified (entry 500000 1000000) YES_ask None)
           (toUnified (entry 500020 1000000) YES_bid None) [] []);
    vm_compute; reflexivity.
Defined.

(** ** The texts of amounts *)

(** The text with two decimals of an amount of micro-units divided by
    1,000,000, and of one divided by 10,000. *)
Lemma micro_text (m : Z) :
  Z.abs m < 2 ^ 52 → Z.abs m mod 10000 ≠ 5000 →
  JS.toFixed 2 (JS.div (JS.of_Z m) (JS.of_Z 1000000))
  = (if m <? 0 then "-" else "")
    +:+ JS.fixed_digits 2 ((Z.abs m + 5000) / 10000).
Proof.
  intros Hm Ht. destruct m as [|p|p]; [reflexivity| |].
  - apply (toFixed_quotient false p 1000000 5000); try done; lia.
  - apply (toFixed_quotient true p 1000000 5000); try done; lia.
Qed.

Lemma cents_text (d : Z) :
  Z.abs d < 2 ^ 52 → Z.abs d mod 100 ≠ 50 →
  JS.toFixed 2 (JS.div (JS.of_Z d) (JS.of_Z 10000))
  = (if d <? 0 then "-" else "")
    +:+ JS.fixed_digits 2 ((Z.abs d + 50) / 100).
Proof.
  intros Hm Ht. destruct d as [|p|p]; [reflexivity| |].
  - apply (toFixed_quotient false p 10000 50); try done; lia.
  - apply (toFixed_quotient true p 10000 50); try done; lia.
Qed.

(** X4. The [shares] of a unified entry are the quantity rounded to the
    nearest hundredth of a share, written with two decimals, for every
    quantity from 0 to 2^52 that is not half way between two
    hundredths. *)
Theorem shares_rounded (e : RawEntry.t) (source : string)
    (priceOverride : option Z) :
  0 ≤ RawEntry.quantity e < 2 ^ 52 →
  RawEntry.quantity e mod 10000 ≠ 5000 →
  UnifiedEntry.shares (toUnified e source priceOverride)
  = JS.fixed_digits 2 ((RawEntry.quantity e + 5000) / 10000).
Proof.
  intros Hq Ht. cbn [toUnified UnifiedEntry.shares].
  rewrite micro_text by (rewrite ?Z.abs_eq; lia).
  rewrite Z.abs_eq by lia.
  by destruct (Z.ltb_spec (RawEntry.quantity e) 0); [lia|].
Qed.

Lemma shares_rounded_witness :
  UnifiedEntry.shares (toUnified (entry 500000 2504999) YES_ask None)
  = JS.fixed_digits 2 ((2504999 + 5000) / 10000).
Proof.
  apply (shares_rounded (entry 500000 2504999) YES_ask None).
  - vm_compute. split; [discriminate|reflexivity].
  - vm_compute. discriminate.
Defined.

(** Half way between two hundredths the text goes either way. *)
Example shares_half_way :
  UnifiedEntry.shares (toUnified (entry 500000 5000) YES_ask None) = "0.01"
  ∧ UnifiedEntry.shares (toUnified (entry 500000 15000) YES_ask None) = "0.01"
  ∧ UnifiedEntry.shares (toUnified (entry 500000 25000) YES_ask None) = "0.03"
  ∧ JS.fixed_digits 2 ((2504999 + 5000) / 10000) = "2.50".
Proof. split_and!; vm_compute; reflexivity. Qed.

(** X5. With both sides non-empty, the spread is the difference between
    the best ask and the best bid rounded to the nearest hundredth of a
    cent, written with two decimals after its sign, for every
    difference below 2^52 in absolute value that is not half way
    between two hundredths of a cent. *)
Theorem spread_rounded (book : Book.t) (a b : UnifiedEntry.t)
    (la lb : list UnifiedEntry.t) :
  asks_of book = a :: la → bids_of book = b :: lb →
  let d := UnifiedEntry.priceRaw a - UnifiedEntry.priceRaw b in
  Z.abs d < 2 ^ 52 → Z.abs d mod 100 ≠ 50 →
  spread_of_book book
  = ((if d <? 0 then "-" else "")
     +:+ JS.fixed_digits 2 ((Z.abs d + 50) / 100)) +:+ "¢".
Proof.
  intros Ha Hb d Hd Ht. rewrite (spread_cons book a b la lb Ha Hb).
  fold d. unfold spread_text. by rewrite cents_text.
Qed.

Lemma spread_rounded_witness :
  spread_of_book sample_book
  = ((if 600000 - 480000 <? 0 then "-" else "")
     +:+ JS.fixed_digits 2 ((Z.abs (600000 - 480000) + 50) / 100)) +:+ "¢".
Proof.
  apply (spread_rounded sample_book
           (toUnified (entry 600000 1000000) YES_ask None)
           (toUnified (entry 480000 1000000) YES_bid None)
           [toUnified (entry 350000 2000000) NO_bid (Some 650000)] []);
    [vm_compute; reflexivity..|vm_compute; discriminate].
Defined.

(** X6. [formatPrice] and [formatQty] write an amount of micro-units as
    the amount rounded to the nearest hundredth, with two decimals
    after its sign, for every amount below 2^52 in absolute value that
    is not half way between two hundredths. *)
Theorem format_rounded (microunits : Z) :
  Z.abs microunits < 2 ^ 52 → Z.abs microunits mod 10000 ≠ 5000 →
  let text := (if microunits <? 0 then "-" else "")
              +:+ JS.fixed_digits 2 ((Z.abs microunits + 5000) / 10000) in
  formatPrice (JS.of_Z microunits) = "$" +:+ text
  ∧ formatQty (JS.of_Z microunits) = text +:+ " shares".
Proof.
  intros Hm Ht. unfold formatPrice, formatQty. by rewrite micro_text.
Qed.

Lemma format_rounded_witness :
  formatPrice (JS.of_Z 123456)
  = "$" +:+ ("" +:+ JS.fixed_digits 2 ((123456 + 5000) / 10000))
  ∧ formatQty (JS.of_Z 123456)
    = ("" +:+ JS.fixed_digits 2 ((123456 + 5000) / 10000)) +:+ " shares".
Proof.
  apply (format_rounded 123456); [vm_compute; reflexivity|vm_compute; discriminate].
Defined.

Example format_texts :
  formatPrice (JS.of_Z 500000) = "$0.50"
  ∧ formatPrice (JS.of_Z (-500000)) = "$-0.50"
  ∧ formatQty (JS.of_Z 2500000) = "2.50 shares"
  ∧ formatQty (JS.of_Z 123456) = "0.12 shares".
Proof. split_and!; vm_compute; reflexivity. Qed.

(** ** Open orders and positions *)

(** An integer and its opposite have the same digits in binary64. *)
Lemma of_Z_opp (p : positive) :
  Zpos p < 2 ^ 53 →
  ∃ m e, JS.of_Z (Zpos p) = S754_finite false m e
         ∧ JS.of_Z (Zneg p) = S754_finite true m e.
Proof.
  intros Hp. unfold JS.of_Z, binary_normalize.
  destruct (of_Z_norm false p Hp) as (m1 & e1 & -> & _ & He1 & _ & Hv1).
  destruct (of_Z_norm true p Hp) as (m2 & e2 & -> & _ & He2 & _ & Hv2).
  exists m1, e1. split; [done|].
  assert (e2 = e1) as -> by lia.
  assert (m2 = m1) as -> by lia. done.
Qed.

(** The difference of two safe integers, when it is a safe integer, is
    the binary64 value of the difference, zero included. *)
Lemma sub_of_Z (a b : Z) :
  - 2 ^ 53 < a < 2 ^ 53 → - 2 ^ 53 < b < 2 ^ 53 →
  - 2 ^ 53 < a - b < 2 ^ 53 →
  JS.sub (JS.of_Z a) (JS.of_Z b) = JS.of_Z (a - b).
Proof.
  intros Ha Hb Hab.
  destruct (Z.eq_dec a 0) as [->|Ha0]; [|destruct (Z.eq_dec b 0) as [->|Hb0]].
  - destruct b as [|p|p]; [done| |].
    + destruct (of_Z_opp p) as (m & e & H1 & H2); [lia|].
      change (0 - Zpos p) with (Zneg p). by rewrite H1, H2.
    + destruct (of_Z_opp p) as (m & e & H1 & H2); [lia|].
      change (0 - Zneg p) with (Zpos p). by rewrite H1, H2.
  - rewrite Z.sub_0_r. destruct a as [|p|p]; [done| |];
      destruct (of_Z_opp p) as (m & e & H1 & H2); try lia;
      by rewrite ?H1, ?H2.
  - by apply sub_exact.
Qed.

(** X7. The [remaining] of an open order whose quantity and filled
    quantity are safe integers is their difference rounded to the
    nearest hundredth of a share, with two decimals after its sign,
    when the difference is below 2^52 in absolute value and not half
    way between two hundredths; an order filled in full has
    "0.00 shares" remaining. *)
Theorem order_remaining (escrowAppId position side price q f : Z) :
  - 2 ^ 53 < q < 2 ^ 53 → - 2 ^ 53 < f < 2 ^ 53 →
  let o := Server.mk_order escrowAppId position side price q f in
  (Z.abs (q - f) < 2 ^ 52 → Z.abs (q - f) mod 10000 ≠ 5000 →
   Server.f_remaining (Server.format_order o)
   = ((if q - f <? 0 then "-" else "")
      +:+ JS.fixed_digits 2 ((Z.abs (q - f) + 5000) / 10000)) +:+ " shares")
  ∧ (q = f → Server.f_remaining (Server.format_order o) = "0.00 shares").
Proof.
  intros Hq Hf o.
  assert (Z.abs (q - f) < 2 ^ 52 →
          Server.f_remaining (Server.format_order o) = formatQty (JS.of_Z (q - f)))
    as Hr.
  { intros Hd. unfold o.
    cbn [Server.format_order Server.f_remaining Server.o_quantity
         Server.o_quantityFilled].
    by rewrite sub_of_Z by lia. }
  split.
  - intros Hd Ht. rewrite Hr by done. unfold formatQty.
    by rewrite micro_text.
  - intros ->. rewrite Hr by (rewrite Z.sub_diag; done).
    by rewrite Z.sub_diag.
Qed.

Lemma order_remaining_witness :
  Server.f_remaining
    (Server.format_order (Server.mk_order 7 1 1 500000 3000000 1250000))
  = ("" +:+ JS.fixed_digits 2 ((1750000 + 5000) / 10000)) +:+ " shares".
Proof.
  destruct (order_remaining 7 1 1 500000 3000000 1250000) as (H & _);
    [vm_compute; split; reflexivity..|].
  apply H; [vm_compute; reflexivity|vm_compute; discriminate].
Defined.

Example order_texts :
  Server.format_order (Server.mk_order 7 1 0 500000 3000000 1250000)
  = Server.mk_formatted_order 7 "YES" "SELL" "$0.50" "3.00 shares"
      "1.25 shares" "1.75 shares"
  ∧ Server.f_remaining
      (Server.format_order (Server.mk_order 7 0 1 500000 1000000 1250000))
    = "-0.25 shares".
Proof. split_and!; vm_compute; reflexivity. Qed.



Example position_texts :
  Server.format_position (Server.mk_position 3012345678 None 2500000 0 11 12)
  = Server.mk_formatted_position 3012345678 "Market 3012345678"
      "2.50 shares" "0.00 shares" 11 12
  ∧ Server.fp_title
      (Server.format_position
         (Server.mk_position 3012345678 (Some "Rain tomorrow?") 0 0 11 12))
    = "Rain tomorrow?".
Proof. split_and!; vm_compute; reflexivity. Qed.

(** ** The wallet address and the clients *)

(** X9. [resolveWalletAddress] returns an address that is not empty:
    the one passed when that is a string that is not empty, and
    otherwise the configured one; it throws, with the message about the
    wallet address, exactly when neither is there. *)
Theorem resolve_wallet (env : Server.Env) (ext : Server.Externals)
    (walletAddress : option string) :
  (∀ a, Server.resolveWalletAddress env ext walletAddress = Server.Return a →
        a ≠ ""
        ∧ (if Server.truthy walletAddress then walletAddress = Some a
           else Server.getConfiguredWalletAddress env ext = Some a))
  ∧ (∀ msg, Server.resolveWalletAddress env ext walletAddress
            = Server.Throw msg →
            msg = Server.no_wallet_message)
  ∧ ((∃ msg, Server.resolveWalletAddress env ext walletAddress
             = Server.Throw msg)
     ↔ Server.truthy walletAddress = false
       ∧ Server.truthy (Server.getConfiguredWalletAddress env ext) = false).
Proof.
  unfold Server.resolveWalletAddress.
  destruct walletAddress as [[|c s]|];
    destruct (Server.getConfiguredWalletAddress env ext) as [[|c' s']|];
    cbn [Server.truthy]; split_and!;
    try (intros a [= <-]; done); try (intros msg [= <-]; done);
    try (split; [by intros [msg [=]]|by intros [[=] [=]]]);
    try (split; [done|by exists Server.no_wallet_message]).
Qed.

(** X10. Without a mnemonic the trading client is refused with the
    message about the mnemonic, the read tools work on the read-only
    client, whose signer signs nothing, and a read tool called without
    a wallet address throws the message about the wallet address. *)
Theorem without_mnemonic (env : Server.Env) (ext : Server.Externals) :
  Server.truthy (Server.MNEMONIC env) = false →
  Server.requireTradingClient env ext
  = Server.Throw Server.no_mnemonic_message
  ∧ Server.getReadOnlyClient env ext
    = Server.Return (Server.createReadOnlyClient env)
  ∧ Server.signer (Server.createReadOnlyClient env) = Server.dummySigner
  ∧ (∀ marketAppId walletAddress,
       Server.truthy walletAddress = false →
       Server.get_open_orders env ext marketAppId walletAddress
       = Server.Throw Server.no_wallet_message
       ∧ Server.get_positions env ext walletAddress
         = Server.Throw Server.no_wallet_message)
  ∧ (∀ marketAppId c s msg,
       (Server.getOpenOrders ext (Server.createReadOnlyClient env)
          marketAppId (String c s) = Server.Throw msg →
        Server.get_open_orders env ext marketAppId (Some (String c s))
        = Server.Throw msg)
       ∧ (Server.getPositions ext (Server.createReadOnlyClient env)
            (String c s) = Server.Throw msg →
          Server.get_positions env ext (Some (String c s))
          = Server.Throw msg))
  ∧ (∀ marketAppId c s,
       (∀ orders,
          Server.getOpenOrders ext (Server.createReadOnlyClient env)
            marketAppId (String c s) = Server.Return orders →
          ∃ text, Server.get_open_orders env ext marketAppId
                    (Some (String c s))
                  = Server.Return (textResult text))
       ∧ (∀ positions,
            Server.getPositions ext (Server.createReadOnlyClient env)
              (String c s) = Server.Return positions →
            ∃ text, Server.get_positions env ext (Some (String c s))
                    = Server.Return (textResult text))).
Proof.
  intros Hm.
  assert (Server.createTradingClient env ext = Server.Return None) as Hc.
  { unfold Server.createTradingClient.
    by destruct (Server.MNEMONIC env) as [[|c s]|]. }
  assert (Server.getConfiguredWalletAddress env ext = None) as Hw.
  { unfold Server.getConfiguredWalletAddress.
    by destruct (Server.MNEMONIC env) as [[|c s]|]. }
  assert (Server.getReadOnlyClient env ext
          = Server.Return (Server.createReadOnlyClient env)) as Hr
    by (unfold Server.getReadOnlyClient; by rewrite Hc).
  split_and!.
  - unfold Server.requireTradingClient. by rewrite Hc.
  - exact Hr.
  - done.
  - intros marketAppId walletAddress Hf.
    unfold Server.get_open_orders, Server.get_positions,
      Server.resolveWalletAddress.
    rewrite Hw. by destruct walletAddress as [[|c s]|].
  - intros marketAppId c s msg.
    unfold Server.get_open_orders, Server.get_positions,
      Server.resolveWalletAddress.
    rewrite Hr. by split; intros ->.
  - intros marketAppId c s.
    unfold Server.get_open_orders, Server.get_positions,
      Server.resolveWalletAddress.
    rewrite Hr. split; intros l ->; by eexists.
Qed.

Lemma without_mnemonic_witness :
  Server.requireTradingClient (sample_env None) sample_ext
  = Server.Throw Server.no_mnemonic_message
  ∧ Server.get_positions (sample_env None) sample_ext (Some "WALLET")
    = Server.Return (textResult "No positions found for this wallet.").
Proof.
  destruct (without_mnemonic (sample_env None) sample_ext) as (H & _);
    [reflexivity|].
  split; [exact H|reflexivity].
Defined.

(** X11. With a valid mnemonic the trading client and the client of the
    read tools are the same client, which signs with the mnemonic's
    account and has its address as the active address; and when that
    address is not empty, a read tool called without a wallet address
    does what it does when called with that address. *)
Theorem with_valid_mnemonic (env : Server.Env) (ext : Server.Externals)
    (mnemonic : string) (account : Server.Account) :
  Server.MNEMONIC env = Some mnemonic → mnemonic ≠ "" →
  Server.mnemonicToSecretKey ext mnemonic = Server.Return account →
  (∃ client,
     Server.requireTradingClient env ext = Server.Return client
     ∧ Server.getReadOnlyClient env ext = Server.Return client
     ∧ Server.signer client = Server.BasicAccountSigner account
     ∧ Server.activeAddress client = Server.addr account)
  ∧ Server.getConfiguredWalletAddress env ext = Some (Server.addr account)
  ∧ (Server.addr account ≠ "" →
     ∀ walletAddress, Server.truthy walletAddress = false →
       Server.get_positions env ext walletAddress
       = Server.get_positions env ext (Some (Server.addr account))
       ∧ ∀ marketAppId,
           Server.get_open_orders env ext marketAppId walletAddress
           = Server.get_open_orders env ext marketAppId
               (Some (Server.addr account))).
Proof.
  intros Hm Hne Hk.
  assert (Server.getConfiguredWalletAddress env ext
          = Some (Server.addr account)) as Hw.
  { unfold Server.getConfiguredWalletAddress. rewrite Hm.
    destruct mnemonic; [done|]. by rewrite Hk. }
  split_and!.
  - unfold Server.requireTradingClient, Server.getReadOnlyClient,
      Server.createTradingClient.
    rewrite Hm. destruct mnemonic; [done|]. rewrite Hk.
    by eexists.
  - exact Hw.
  - intros Ha walletAddress Hf.
    assert (Server.resolveWalletAddress env ext walletAddress
            = Server.resolveWalletAddress env ext (Some (Server.addr account)))
      as Hr.
    { unfold Server.resolveWalletAddress. rewrite Hw.
      destruct (Server.addr account); [done|].
      by destruct walletAddress as [[|c' s']|]. }
    unfold Server.get_positions, Server.get_open_orders. by rewrite Hr.
Qed.

Lemma with_valid_mnemonic_witness :
  ∃ client,
    Server.requireTradingClient (sample_env (Some "good")) sample_ext
    = Server.Return client
    ∧ Server.getReadOnlyClient (sample_env (Some "good")) sample_ext
      = Server.Return client
    ∧ Server.signer client = Server.BasicAccountSigner sample_account
    ∧ Server.activeAddress client = "WALLET".
Proof.
  destruct (with_valid_mnemonic (sample_env (Some "good")) sample_ext
              "good" sample_account) as (H & _);
    [reflexivity|discriminate|reflexivity|exact H].
Defined.

(** X12. With a mnemonic that [mnemonicToSecretKey] refuses, no wallet
    address is configured, and the error of [mnemonicToSecretKey]
    leaves both kinds of client and every read tool that is given a
    wallet address; a read tool without one throws the message about
    the wallet address. *)
Theorem with_invalid_mnemonic (env : Server.Env) (ext : Server.Externals)
    (mnemonic message : string) :
  Server.MNEMONIC env = Some mnemonic → mnemonic ≠ "" →
  Server.mnemonicToSecretKey ext mnemonic = Server.Throw message →
  Server.getConfiguredWalletAddress env ext = None
  ∧ Server.requireTradingClient env ext = Server.Throw message
  ∧ Server.getReadOnlyClient env ext = Server.Throw message
  ∧ (∀ marketAppId walletAddress,
       Server.get_open_orders env ext marketAppId walletAddress
       = Server.Throw (if Server.truthy walletAddress then message
                       else Server.no_wallet_message))
  ∧ (∀ walletAddress,
       Server.get_positions env ext walletAddress
       = Server.Throw (if Server.truthy walletAddress then message
                       else Server.no_wallet_message)).
Proof.
  intros Hm Hne Hk.
  assert (Server.getConfiguredWalletAddress env ext = None) as Hw.
  { unfold Server.getConfiguredWalletAddress. rewrite Hm.
    destruct mnemonic; [done|]. by rewrite Hk. }
  assert (Server.getReadOnlyClient env ext = Server.Throw message) as Hr.
  { unfold Server.getReadOnlyClient, Server.createTradingClient.
    rewrite Hm. destruct mnemonic; [done|]. by rewrite Hk. }
  split_and!.
  - exact Hw.
  - unfold Server.requireTradingClient, Server.createTradingClient.
    rewrite Hm. destruct mnemonic; [done|]. by rewrite Hk.
  - exact Hr.
  - intros marketAppId walletAddress.
    unfold Server.get_open_orders, Server.resolveWalletAddress.
    rewrite Hw, Hr. by destruct walletAddress as [[|c s]|].
  - intros walletAddress.
    unfold Server.get_positions, Server.resolveWalletAddress.
    rewrite Hw, Hr. by destruct walletAddress as [[|c s]|].
Qed.

Lemma with_invalid_mnemonic_witness :
  Server.getConfiguredWalletAddress (sample_env (Some "bad")) sample_ext = None
  ∧ Server.get_positions (sample_env (Some "bad")) sample_ext (Some "WALLET")
    = Server.Throw "failed to decode mnemonic".
Proof.
  destruct (with_invalid_mnemonic (sample_env (Some "bad")) sample_ext
              "bad" "failed to decode mnemonic") as (H1 & _ & _ & _ & H2);
    [reflexivity|discriminate|reflexivity|].
  split; [exact H1|exact (H2 (Some "WALLET"))].
Defined.
